(** * The diff-output parser of [lib/git/diff.py]

    The segment loop of [lib/git/diff.py] splits the text printed by
    [git diff] on the token [\ndiff --git], matches the compiled pattern
    [diff_header] at the start of every segment and builds one [Diff]
    object per segment.  This file embeds that loop together with the two
    library operations it relies on ([str.split] and a backtracking
    [re.match] for the constructs the pattern uses), and proves the
    properties the specification states about it. *)

From Stdlib Require Import List Ascii String Arith Lia Bool.
Import ListNotations.

Local Open Scope list_scope.
Local Open Scope char_scope.

(* [String] also exports a [length]; texts here are lists. *)
Local Abbreviation length := Datatypes.length (only parsing).

(** Python byte strings are lists of characters. *)
Definition str := list ascii.

(** The newline character [\n]. *)
Definition nl : ascii := "010".

(** A string literal as a [str]. *)
Definition txt (s : string) : str := list_ascii_of_string s.

(** A line of text: the literal followed by a newline. *)
Definition ln (s : string) : str := txt s ++ [nl].

(* ================================================================== *)
(** ** Python string operations *)

Module PyStr.

(** [drop_prefix p s] is [Some t] when [s = p ++ t] ([s.startswith(p)],
    with the remainder). *)
Fixpoint drop_prefix (p s : str) : option str :=
  match p with
  | [] => Some s
  | a :: p' =>
      match s with
      | [] => None
      | b :: s' => if Ascii.eqb a b then drop_prefix p' s' else None
      end
  end.

Definition starts_with (p s : str) : bool :=
  match drop_prefix p s with Some _ => true | None => false end.

(** Puts a character in front of the first piece. *)
Definition push (c : ascii) (ps : list str) : list str :=
  match ps with
  | [] => [[c]]
  | p :: ps' => (c :: p) :: ps'
  end.

(** [s.split(sep)] for a non-empty [sep]: a scan from the left; where
    [sep] occurs, the current piece ends and the scan resumes behind the
    occurrence ([skip] counts the characters of the occurrence still to
    be passed over). *)
Fixpoint split_scan (sep : str) (skip : nat) (s : str) : list str :=
  match s with
  | [] => [[]]
  | c :: s' =>
      match skip with
      | S k => split_scan sep k s'
      | O =>
          if starts_with sep s
          then [] :: split_scan sep (length sep - 1) s'
          else push c (split_scan sep 0 s')
      end
  end.

Definition split (sep s : str) : list str := split_scan sep 0 s.

(** [sep.join(pieces)]. *)
Fixpoint join (sep : str) (ps : list str) : str :=
  match ps with
  | [] => []
  | [p] => p
  | p :: ps' => p ++ sep ++ join sep ps'
  end.

(** [sep] occurs somewhere in [s]. *)
Definition occurs (sep s : str) : Prop :=
  exists pre post, s = pre ++ sep ++ post.

(** The number of positions of [s] at which [sep] starts. *)
Fixpoint occurrences (sep s : str) : nat :=
  match s with
  | [] => 0
  | _ :: s' => (if starts_with sep s then 1 else 0) + occurrences sep s'
  end.

(** Truth value of an optional string: [None] and [''] are false. *)
Definition truthy (v : option str) : bool :=
  match v with
  | Some (_ :: _) => true
  | _ => false
  end.

(** [a or b]. *)
Definition or_ (a b : option str) : option str :=
  if truthy a then a else b.

(** [a != b] on optional strings. *)
Definition opt_str_eqb (a b : option str) : bool :=
  match a, b with
  | None, None => true
  | Some x, Some y => if list_eq_dec ascii_dec x y then true else false
  | _, _ => false
  end.

Definition ne (a b : option str) : bool := negb (opt_str_eqb a b).

End PyStr.

(* ================================================================== *)
(** ** Regular expressions: the constructs [diff_header] uses *)

Module Re.

Inductive regex : Type :=
| Lit (w : str)                 (* literal text *)
| Plus (cls : ascii -> bool)    (* one or more of a character class, greedy *)
| Seq (r1 r2 : regex)           (* r1 r2 *)
| Alt (r1 r2 : regex)           (* r1|r2 *)
| Opt (r : regex)               (* r?, greedy *)
| Group (n : nat) (r : regex)   (* capturing group number n *)
| Bol                           (* ^ under re.MULTILINE *)
| Eol.                          (* $ under re.MULTILINE *)

(** The matcher's position: the characters behind it (latest first), the
    characters ahead, and the text captured by every group so far. *)
Record cursor : Type := Cursor {
  seen : str;
  rest : str;
  marks : nat -> option str
}.

(** [^] with MULTILINE: at the start of the text or right behind a
    newline. *)
Definition at_bol (c : cursor) : bool :=
  match seen c with
  | [] => true
  | x :: _ => Ascii.eqb x nl
  end.

(** [$] with MULTILINE: at the end of the text or right before a
    newline. *)
Definition at_eol (c : cursor) : bool :=
  match rest c with
  | [] => true
  | x :: _ => Ascii.eqb x nl
  end.

(** The text passed between two positions. *)
Definition span (c c' : cursor) : str :=
  rev (firstn (length (seen c') - length (seen c)) (seen c')).

Definition set_mark (n : nat) (v : str) (c : cursor) : cursor :=
  Cursor (seen c) (rest c) (fun i => if Nat.eqb i n then Some v else marks c i).

(** [cls+]: the longest run first, shorter ones when the continuation
    fails. *)
Fixpoint plus_from (cls : ascii -> bool) (k : cursor -> option cursor)
    (mk : nat -> option str) (sn rs : str) : option cursor :=
  match rs with
  | [] => None
  | x :: rs' =>
      if cls x then
        match plus_from cls k mk (x :: sn) rs' with
        | Some e => Some e
        | None => k (Cursor (x :: sn) rs' mk)
        end
      else None
  end.

(** The backtracking matcher, in continuation-passing style: [run r c k]
    is the first way, in the engine's order of preference, of matching
    [r] at [c] such that the continuation [k] accepts the position
    reached. Marks set on an abandoned path are forgotten with it. *)
Fixpoint run (r : regex) (c : cursor) (k : cursor -> option cursor)
    : option cursor :=
  match r with
  | Lit w =>
      match PyStr.drop_prefix w (rest c) with
      | Some post => k (Cursor (rev w ++ seen c) post (marks c))
      | None => None
      end
  | Plus cls => plus_from cls k (marks c) (seen c) (rest c)
  | Seq r1 r2 => run r1 c (fun c1 => run r2 c1 k)
  | Alt r1 r2 =>
      match run r1 c k with
      | Some e => Some e
      | None => run r2 c k
      end
  | Opt r1 =>
      match run r1 c k with
      | Some e => Some e
      | None => k c
      end
  | Group n r1 => run r1 c (fun c1 => k (set_mark n (span c c1) c1))
  | Bol => if at_bol c then k c else None
  | Eol => if at_eol c then k c else None
  end.

(** A match object: [groups()] and [end()]. *)
Record Match : Type := MkMatch {
  groups : list (option str);
  end_ : nat
}.

Definition start_cursor (s : str) : cursor := Cursor [] s (fun _ => None).

Definition match_of (ngroups : nat) (c : cursor) : Match :=
  MkMatch (map (marks c) (seq 1 ngroups)) (length (seen c)).

(** [re.compile(r).match(s)] for a pattern with [ngroups] groups. *)
Definition match_ (r : regex) (ngroups : nat) (s : str) : option Match :=
  option_map (match_of ngroups) (run r (start_cursor s) Some).

(** The positions a regex relates, without the order of preference. *)
Fixpoint den (r : regex) (c c' : cursor) : Prop :=
  match r with
  | Lit w =>
      exists post, rest c = w ++ post /\
                   c' = Cursor (rev w ++ seen c) post (marks c)
  | Plus cls =>
      exists w post, w <> [] /\ forallb cls w = true /\
                     rest c = w ++ post /\
                     c' = Cursor (rev w ++ seen c) post (marks c)
  | Seq r1 r2 => exists c1, den r1 c c1 /\ den r2 c1 c'
  | Alt r1 r2 => den r1 c c' \/ den r2 c c'
  | Opt r1 => den r1 c c' \/ c' = c
  | Group n r1 => exists c1, den r1 c c1 /\ c' = set_mark n (span c c1) c1
  | Bol => at_bol c = true /\ c' = c
  | Eol => at_eol c = true /\ c' = c
  end.

(** The groups a regex can set. *)
Fixpoint groups_of (r : regex) : list nat :=
  match r with
  | Lit _ | Plus _ | Bol | Eol => []
  | Seq r1 r2 | Alt r1 r2 => groups_of r1 ++ groups_of r2
  | Opt r1 => groups_of r1
  | Group n r1 => n :: groups_of r1
  end.

(** A regex that cannot match the empty text. *)
Fixpoint nonempty (r : regex) : bool :=
  match r with
  | Lit w => match w with [] => false | _ => true end
  | Plus _ => true
  | Seq r1 r2 => nonempty r1 || nonempty r2
  | Alt r1 r2 => nonempty r1 && nonempty r2
  | Opt _ | Bol | Eol => false
  | Group _ r1 => nonempty r1
  end.

(** Every group of the regex wraps a regex that cannot match the empty
    text. *)
Fixpoint groups_nonempty (r : regex) : bool :=
  match r with
  | Lit _ | Plus _ | Bol | Eol => true
  | Seq r1 r2 | Alt r1 r2 => groups_nonempty r1 && groups_nonempty r2
  | Opt r1 => groups_nonempty r1
  | Group _ r1 => nonempty r1 && groups_nonempty r1
  end.

(** A sequence of optional parts: it can always be skipped as a whole. *)
Fixpoint skippable (r : regex) : bool :=
  match r with
  | Opt _ => true
  | Seq r1 r2 => skippable r1 && skippable r2
  | _ => false
  end.

End Re.

(* ================================================================== *)
(** ** The header pattern of [lib/git/diff.py] *)

Import Re.

Infix ">>" := Seq (at level 61, right associativity).

(** [\s] of an 8-bit pattern (no LOCALE or UNICODE flag is given):
    space, tab, newline, vertical tab, form feed, carriage return. *)
Definition is_space (c : ascii) : bool :=
  let n := nat_of_ascii c in
  Nat.eqb n 32 || (Nat.leb 9 n && Nat.leb n 13).

(** [\S] *)
Definition nonspace (c : ascii) : bool := negb (is_space c).

(** [\d] *)
Definition digit (c : ascii) : bool :=
  let n := nat_of_ascii c in Nat.leb 48 n && Nat.leb n 57.

(** [.] (without DOTALL): anything but a newline. *)
Definition dot (c : ascii) : bool := negb (Ascii.eqb c nl).

(** [[0-9A-Fa-f]] *)
Definition hexdigit (c : ascii) : bool :=
  let n := nat_of_ascii c in
  (Nat.leb 48 n && Nat.leb n 57) || (Nat.leb 65 n && Nat.leb n 70)
  || (Nat.leb 97 n && Nat.leb n 102).

(** [(?:\n|$)] *)
Definition line_end : regex := Alt (Lit [nl]) Eol.

(** [[ ]a/(?P<a_path>\S+)[ ]b/(?P<b_path>\S+)\n]; the line above it in
    the pattern, [#^diff[ ]--git], is a comment under re.VERBOSE. *)
Definition path_clause : regex :=
  Lit (txt " a/") >> Group 1 (Plus nonspace) >>
  Lit (txt " b/") >> Group 2 (Plus nonspace) >> Lit [nl].

(** [(?:^similarity[ ]index[ ](?P<similarity_index>\d+)%\n
        ^rename[ ]from[ ](?P<rename_from>\S+)\n
        ^rename[ ]to[ ](?P<rename_to>\S+)(?:\n|$))] *)
Definition rename_clause : regex :=
  Bol >> Lit (txt "similarity index ") >> Group 3 (Plus digit) >>
  Lit (ln "%") >>
  Bol >> Lit (txt "rename from ") >> Group 4 (Plus nonspace) >> Lit [nl] >>
  Bol >> Lit (txt "rename to ") >> Group 5 (Plus nonspace) >> line_end.

(** [(?:^old[ ]mode[ ](?P<old_mode>\d+)\n
        ^new[ ]mode[ ](?P<new_mode>\d+)(?:\n|$))] *)
Definition mode_clause : regex :=
  Bol >> Lit (txt "old mode ") >> Group 6 (Plus digit) >> Lit [nl] >>
  Bol >> Lit (txt "new mode ") >> Group 7 (Plus digit) >> line_end.

(** [(?:^new[ ]file[ ]mode[ ](?P<new_file_mode>.+)(?:\n|$))] *)
Definition new_file_clause : regex :=
  Bol >> Lit (txt "new file mode ") >> Group 8 (Plus dot) >> line_end.

(** [(?:^deleted[ ]file[ ]mode[ ](?P<deleted_file_mode>.+)(?:\n|$))] *)
Definition deleted_file_clause : regex :=
  Bol >> Lit (txt "deleted file mode ") >> Group 9 (Plus dot) >> line_end.

(** [(?:^index[ ](?P<a_commit>[0-9A-Fa-f]+)
        \.\.(?P<b_commit>[0-9A-Fa-f]+)[ ]?(?P<b_mode>.+)?(?:\n|$))] *)
Definition index_clause : regex :=
  Bol >> Lit (txt "index ") >> Group 10 (Plus hexdigit) >>
  Lit (txt "..") >> Group 11 (Plus hexdigit) >>
  Opt (Lit (txt " ")) >> Opt (Group 12 (Plus dot)) >> line_end.

(** The five optional clauses, each followed by [?]. *)
Definition optional_clauses : regex :=
  Opt rename_clause >> Opt mode_clause >> Opt new_file_clause >>
  Opt deleted_file_clause >> Opt index_clause.

Definition diff_header_re : regex := path_clause >> optional_clauses.

(** [diff_header = re.compile(..., re.VERBOSE | re.MULTILINE).match] *)
Definition diff_header (s : str) : option Match :=
  match_ diff_header_re 12 s.

(** The mandatory clause on its own. *)
Definition path_clause_matches (s : str) : bool :=
  match run path_clause (start_cursor s) Some with
  | Some _ => true
  | None => false
  end.

(** The token the text is split on, ['\ndiff --git']. *)
Definition delim : str := nl :: txt "diff --git".

(* ================================================================== *)
(** ** [Diff] objects and the segment loop *)

(** The exceptions the loop can raise: [header.groups()] on [None], and
    a tuple assignment of the wrong length. *)
Inductive exn : Type := AttributeError | ValueError.

Section DiffParser.

(** The repository handle is passed through untouched. *)
Variable Repo : Type.

(** A [Diff] object.  [__init__] takes twelve arguments; of its body the
    file shows the assignments of [rename_from], [rename_to] and
    [renamed].  The record keeps every argument as the loop passes it,
    and [renamed] as [__init__] computes it, so a statement about a
    field is a statement about the value the loop hands to [Diff]. *)
Record Diff : Type := MkDiff {
  repo : Repo;
  a_path : option str;
  b_path : option str;
  a_commit : option str;
  b_commit : option str;
  a_mode : option str;
  b_mode : option str;
  new_file : bool;
  deleted_file : bool;
  rename_from : option str;
  rename_to : option str;
  renamed : bool;
  diff : str
}.

(** [Diff.__init__]: [self.renamed = rename_from != rename_to]. *)
Definition Diff_init (repo : Repo)
    (a_path b_path a_commit b_commit a_mode b_mode : option str)
    (new_file deleted_file : bool) (rename_from rename_to : option str)
    (diff : str) : Diff :=
  MkDiff repo a_path b_path a_commit b_commit a_mode b_mode
         new_file deleted_file rename_from rename_to
         (PyStr.ne rename_from rename_to) diff.

(** The body of the loop, from the match object of a segment. *)
Definition build (repo : Repo) (diff : str) (header : Match) : exn + Diff :=
  match groups header with
  | [a_path; b_path; similarity_index; rename_from; rename_to;
     old_mode; new_mode; new_file_mode; deleted_file_mode;
     a_commit; b_commit; b_mode] =>
      let new_file := PyStr.truthy new_file_mode in
      let deleted_file := PyStr.truthy deleted_file_mode in
      inr (Diff_init repo a_path b_path a_commit b_commit
             (PyStr.or_ old_mode deleted_file_mode)
             (PyStr.or_ (PyStr.or_ new_mode new_file_mode) b_mode)
             new_file deleted_file rename_from rename_to
             (skipn (end_ header) diff))
  | _ => inl ValueError
  end.

(** [for diff in ...: header = diff_header(diff); ...; diffs.append(...)];
    an exception leaves the loop at once. *)
Fixpoint segment_loop (repo : Repo) (segs : list str) (diffs : list Diff)
    : exn + list Diff :=
  match segs with
  | [] => inr diffs
  | diff :: segs' =>
      match diff_header diff with
      | None => inl AttributeError
      | Some header =>
          match build repo diff header with
          | inl e => inl e
          | inr d => segment_loop repo segs' (diffs ++ [d])
          end
      end
  end.

(** [('\n' + text).split('\ndiff --git')[1:]] *)
Definition segments (text : str) : list str :=
  tl (PyStr.split delim (nl :: text)).

(** The parser: the list [diffs], empty before the loop, once the loop
    has run over every segment of [text].  (The [def] line of the
    function is not part of the file; the specification calls the
    function [parse].) *)
Definition parse (repo : Repo) (text : str) : exn + list Diff :=
  segment_loop repo (segments text) [].

End DiffParser.

Arguments MkDiff {Repo}.
Arguments repo {Repo}.
Arguments a_path {Repo}.
Arguments b_path {Repo}.
Arguments a_commit {Repo}.
Arguments b_commit {Repo}.
Arguments a_mode {Repo}.
Arguments b_mode {Repo}.
Arguments new_file {Repo}.
Arguments deleted_file {Repo}.
Arguments rename_from {Repo}.
Arguments rename_to {Repo}.
Arguments renamed {Repo}.
Arguments diff {Repo}.
Arguments Diff_init {Repo}.
Arguments build {Repo}.
Arguments segment_loop {Repo}.
Arguments parse {Repo}.

(* ================================================================== *)
(** ** The test decorators of [git/test/lib/helper.py] *)

Module Helper.

Section Decorators.

(** What the decorators handle without looking inside: the value a test
    function returns, exceptions, repository objects and commits. *)
Variables (Val Exn RepoObj Commit : Type).

(** [isinstance(e, Exception)]: false for the exceptions that derive
    from [BaseException] only, such as [KeyboardInterrupt]. *)
Variable is_Exception : Exn -> bool.

(** [repo.working_dir] *)
Variable working_dir : RepoObj -> str.

(** The calls the decorators make to the outside: the library, the
    repository objects and the decorated test function. *)
Inductive Call : Type :=
| Mktemp (suffix prefix : option str)   (* tempfile.mktemp(suffix, prefix) *)
| Mkdir (path : str)                    (* os.mkdir(path) *)
| Rmtree (path : str)                   (* rmtree(path) *)
| GcCollect                             (* gc.collect() *)
| LogInfo (fmt : str) (args : list str) (* log.info(fmt, *args) *)
| TestDir (path : str)                  (* func(self, path) *)
| TestRepo (rw_repo : RepoObj)          (* func(self, rw_repo) *)
| Clone (src : RepoObj) (path : str) (bare : bool)
                      (* src.clone(path, shared=True, bare=bare, n=True) *)
| LookupCommit (r : RepoObj) (ref : str)     (* r.commit(ref) *)
| SetHeadCommit (r : RepoObj) (c : Commit)   (* r.head.commit = c *)
| CheckoutHead (r : RepoObj)            (* r.head.reference.checkout() *)
| Getcwd                                (* os.getcwd() *)
| Chdir (path : str)                    (* os.chdir(path) *)
| ClearCache (r : RepoObj).             (* r.git.clear_cache() *)

(** What a call returns when it does not raise. *)
Definition resp (c : Call) : Type :=
  match c with
  | Mktemp _ _ | Getcwd => str
  | TestDir _ | TestRepo _ => Val
  | Clone _ _ _ => RepoObj
  | LookupCommit _ _ => Commit
  | _ => unit
  end.

(** Returned values, for the record of what happened. *)
Inductive value : Type :=
| VNone
| VStr (s : str)
| VVal (v : Val)
| VRepo (r : RepoObj)
| VCommit (c : Commit).

Definition inj (c : Call) : resp c -> value :=
  match c with
  | Mktemp _ _ | Getcwd => VStr
  | TestDir _ | TestRepo _ => VVal
  | Clone _ _ _ => VRepo
  | LookupCommit _ _ => VCommit
  | _ => fun _ => VNone
  end.

(** One call with its outcome: the exception raised or the value
    returned. *)
Definition event : Type := (Call * (Exn + value))%type.

(** The outside: how a call ends, given everything that happened
    before it. *)
Variable env : list event -> forall c : Call, Exn + resp c.

(** Computations that make calls, keep a local variable of type [L] and
    may raise. *)
Definition M (L A : Type) : Type :=
  list event -> L -> list event * L * (Exn + A).

Definition ret {L A : Type} (a : A) : M L A := fun tr l => (tr, l, inr a).

Definition raise {L A : Type} (e : Exn) : M L A := fun tr l => (tr, l, inl e).

Definition bind {L A B : Type} (m : M L A) (k : A -> M L B) : M L B :=
  fun tr l =>
    match m tr l with
    | (tr', l', inl e) => (tr', l', inl e)
    | (tr', l', inr a) => k a tr' l'
    end.

Definition call {L : Type} (c : Call) : M L (resp c) :=
  fun tr l =>
    let r := env tr c in
    (tr ++ [(c, match r with inl e => inl e | inr v => inr (inj c v) end)],
     l, r).

Definition get {L : Type} : M L L := fun tr l => (tr, l, inr l).

Definition put {L : Type} (l : L) : M L unit := fun tr _ => (tr, l, inr tt).

(** [try: m  except <catches>: h], the handler seeing the exception. *)
Definition try_except {L A : Type} (m : M L A) (catches : Exn -> bool)
    (h : Exn -> M L A) : M L A :=
  fun tr l =>
    match m tr l with
    | (tr', l', inl e) => if catches e then h e tr' l' else (tr', l', inl e)
    | r => r
    end.

(** [try: m  finally: f]: [f] runs however [m] ends; what [m] returned
    or raised stands unless [f] raises. *)
Definition try_finally {L A : Type} (m : M L A) (f : M L unit) : M L A :=
  fun tr l =>
    match m tr l with
    | (tr', l', out) =>
        match f tr' l' with
        | (tr'', l'', inl e) => (tr'', l'', inl e)
        | (tr'', l'', inr _) => (tr'', l'', out)
        end
    end.

Notation "x <- m ;; k" := (bind m (fun x => k))
  (at level 100, m at next level, right associativity).
Notation "m ;;; k" := (bind m (fun _ => k))
  (at level 100, right associativity).

(** [with_rw_directory(func)(self)]: the wrapper, for a test function
    called [func_name] in a test class called [cls_name].  The local
    variable is [keep]. *)
Definition with_rw_directory (cls_name func_name : str) : M bool Val :=
  path <- call (Mktemp None (Some func_name)) ;;
  call (Mkdir path) ;;;
  put false ;;;
  try_finally
    (try_except (call (TestDir path)) is_Exception
       (fun e =>
          call (LogInfo (ln "Test %s.%s failed, output is at %r")
                        [cls_name; func_name; path]) ;;;
          put true ;;;
          raise e))
    (call GcCollect ;;;
     keep <- (get : M bool bool) ;;
     if keep then ret tt else (call (Rmtree path) : M bool unit)).

(** [with_rw_repo(working_tree_ref, bare)(func)(self)], for the
    read-only repository [rorepo] of the test class.  The local variable
    is [repo_dir], set to [None] when the test function fails. *)
Definition with_rw_repo (working_tree_ref : str) (bare : bool)
    (rorepo : RepoObj) (func_name : str) : M (option str) Val :=
  let prefix := if bare then txt "" else txt "non_" in
  repo_dir <- call (Mktemp (Some (prefix ++ txt "bare_" ++ func_name)) None) ;;
  put (Some repo_dir) ;;;
  rw_repo <- call (Clone rorepo repo_dir bare) ;;
  c <- call (LookupCommit rw_repo working_tree_ref) ;;
  call (SetHeadCommit rw_repo c) ;;;
  (if bare then ret tt
   else (call (CheckoutHead rw_repo) : M (option str) unit)) ;;;
  prev_cwd <- call Getcwd ;;
  call (Chdir (working_dir rw_repo)) ;;;
  try_finally
    (try_except (call (TestRepo rw_repo)) (fun _ => true)
       (fun e =>
          call (LogInfo (txt "Keeping repo after failure: %s") [repo_dir]) ;;;
          put None ;;;
          raise e))
    (call (Chdir prev_cwd) ;;;
     call (ClearCache rw_repo) ;;;
     call GcCollect ;;;
     d <- (get : M (option str) (option str)) ;;
     match d with
     | Some p => (call (Rmtree p) : M (option str) unit)
     | None => ret tt
     end).

(** What the record of the calls says. *)
Definition called (c : Call) (tr : list event) : Prop :=
  exists r, In (c, r) tr.

Definition returned (c : Call) (tr : list event) : Prop :=
  exists v, In (c, inr v) tr.

Definition raised (c : Call) (e : Exn) (tr : list event) : Prop :=
  In (c, inl e) tr.

(** The event [a] happened before the event [b]. *)
Definition before (a b : event) (tr : list event) : Prop :=
  exists i j, i < j /\ nth_error tr i = Some a /\ nth_error tr j = Some b.

End Decorators.

Arguments Mktemp {RepoObj Commit}.
Arguments Mkdir {RepoObj Commit}.
Arguments Rmtree {RepoObj Commit}.
Arguments GcCollect {RepoObj Commit}.
Arguments LogInfo {RepoObj Commit}.
Arguments TestDir {RepoObj Commit}.
Arguments TestRepo {RepoObj Commit}.
Arguments Clone {RepoObj Commit}.
Arguments LookupCommit {RepoObj Commit}.
Arguments SetHeadCommit {RepoObj Commit}.
Arguments CheckoutHead {RepoObj Commit}.
Arguments Getcwd {RepoObj Commit}.
Arguments Chdir {RepoObj Commit}.
Arguments ClearCache {RepoObj Commit}.
Arguments VNone {Val RepoObj Commit}.
Arguments VStr {Val RepoObj Commit}.
Arguments VVal {Val RepoObj Commit}.
Arguments VRepo {Val RepoObj Commit}.
Arguments VCommit {Val RepoObj Commit}.
Arguments with_rw_directory {Val Exn RepoObj Commit}.
Arguments with_rw_repo {Val Exn RepoObj Commit}.
Arguments called {Val Exn RepoObj Commit}.
Arguments returned {Val Exn RepoObj Commit}.
Arguments raised {Val Exn RepoObj Commit}.
Arguments before {Val Exn RepoObj Commit}.

End Helper.

(* ================================================================== *)
(** ** Vocabulary of the statements *)

(** Group numbers by name ([diff_header]'s [groupindex]). *)
Module G.
Definition a_path := 1.
Definition b_path := 2.
Definition similarity_index := 3.
Definition rename_from := 4.
Definition rename_to := 5.
Definition old_mode := 6.
Definition new_mode := 7.
Definition new_file_mode := 8.
Definition deleted_file_mode := 9.
Definition a_commit := 10.
Definition b_commit := 11.
Definition b_mode := 12.
End G.

(** [header.group(n)] for [n >= 1]. *)
Definition group (h : Match) (n : nat) : option str :=
  nth (n - 1) (groups h) None.

(** What one round of the loop makes of a segment. *)
Definition record_of {Repo : Type} (repo : Repo) (seg : str) : exn + Diff Repo :=
  match diff_header seg with
  | None => inl AttributeError
  | Some header => build repo seg header
  end.

(** The position moved over the text [w]. *)
Definition moved (w : str) (c c' : cursor) : Prop :=
  rest c = w ++ rest c' /\ seen c' = rev w ++ seen c.

(** How a header line ends: with a newline, or with nothing at the end
    of the segment or before a newline. *)
Definition ends (e : str) (c' : cursor) : Prop :=
  e = [nl] \/ (e = [] /\ at_eol c' = true).

(** A non-empty run of characters of one class. *)
Definition run_of (cls : ascii -> bool) (w : str) : Prop :=
  w <> [] /\ forallb cls w = true.

(** The texts of the header lines, by their fields. *)
Definition path_text (a b : str) : str :=
  txt " a/" ++ a ++ txt " b/" ++ b ++ [nl].

Definition rename_text (si rf rt e : str) : str :=
  txt "similarity index " ++ si ++ ln "%" ++
  txt "rename from " ++ rf ++ [nl] ++
  txt "rename to " ++ rt ++ e.

Definition mode_text (om nm e : str) : str :=
  txt "old mode " ++ om ++ [nl] ++ txt "new mode " ++ nm ++ e.

Definition new_file_text (v e : str) : str := txt "new file mode " ++ v ++ e.

Definition deleted_file_text (v e : str) : str :=
  txt "deleted file mode " ++ v ++ e.

Definition index_text (ac bc sp bm e : str) : str :=
  txt "index " ++ ac ++ txt ".." ++ bc ++ sp ++ bm ++ e.

(** An optional clause in a matched header: either it takes no text and
    its groups are unset, or its text is a line of exactly the clause's
    form and its groups hold the fields of that line. *)
Definition line_stop (e : str) : Prop := e = [nl] \/ e = [].

Definition rename_part (h : Match) (k : str) : Prop :=
  (k = [] /\ group h G.similarity_index = None /\
   group h G.rename_from = None /\ group h G.rename_to = None) \/
  (exists si rf rt e,
     k = rename_text si rf rt e /\ line_stop e /\
     run_of digit si /\ run_of nonspace rf /\ run_of nonspace rt /\
     group h G.similarity_index = Some si /\
     group h G.rename_from = Some rf /\ group h G.rename_to = Some rt).

Definition mode_part (h : Match) (k : str) : Prop :=
  (k = [] /\ group h G.old_mode = None /\ group h G.new_mode = None) \/
  (exists om nm e,
     k = mode_text om nm e /\ line_stop e /\
     run_of digit om /\ run_of digit nm /\
     group h G.old_mode = Some om /\ group h G.new_mode = Some nm).

Definition new_file_part (h : Match) (k : str) : Prop :=
  (k = [] /\ group h G.new_file_mode = None) \/
  (exists v e,
     k = new_file_text v e /\ line_stop e /\ run_of dot v /\
     group h G.new_file_mode = Some v).

Definition deleted_file_part (h : Match) (k : str) : Prop :=
  (k = [] /\ group h G.deleted_file_mode = None) \/
  (exists v e,
     k = deleted_file_text v e /\ line_stop e /\ run_of dot v /\
     group h G.deleted_file_mode = Some v).

Definition index_part (h : Match) (k : str) : Prop :=
  (k = [] /\ group h G.a_commit = None /\ group h G.b_commit = None /\
   group h G.b_mode = None) \/
  (exists ac bc sp bm e,
     k = index_text ac bc sp bm e /\ line_stop e /\
     (sp = [] \/ sp = txt " ") /\
     run_of hexdigit ac /\ run_of hexdigit bc /\
     group h G.a_commit = Some ac /\ group h G.b_commit = Some bc /\
     ((bm = [] /\ group h G.b_mode = None) \/
      (run_of dot bm /\ group h G.b_mode = Some bm))).



(** The text up to the first newline. *)
Fixpoint first_line (s : str) : str :=
  match s with
  | [] => []
  | x :: s' => if dot x then x :: first_line s' else []
  end.

(** The number of whitespace characters of a text. *)
Definition spaces (s : str) : nat := length (filter is_space s).

(** Texts behind the first [diff --git] whose path line the mandatory
    clause refuses although it starts as [ a/<path> b/<path>]: a path
    holds whitespace other than a newline; or the segment ends behind
    the paths, at the end of the text or at the next token, so that no
    newline of the segment follows them. *)
Inductive bad_path_line : str -> Prop :=
| space_in_path (a b t : str) :
    forallb dot (a ++ b) = true -> existsb is_space (a ++ b) = true ->
    bad_path_line (path_text a b ++ t)
| no_newline (a b r : str) :
    forallb dot (a ++ b) = true ->
    (r = [] \/ exists r', r = delim ++ r') ->
    bad_path_line ((txt " a/" ++ a ++ txt " b/" ++ b) ++ r).

(** ** Headers as git writes them *)

(** The text behind a run of a class: nothing, or a character outside
    the class. *)
Definition stops (cls : ascii -> bool) (post : str) : Prop :=
  match post with
  | [] => True
  | x :: _ => cls x = false
  end.

(** How the last line of a clause may end: with a newline, or with
    nothing when the segment ends there (the newline in front of the
    next [diff --git] belongs to the token the text is split on). *)
Definition closes (e t : str) : Prop := e = [nl] \/ (e = [] /\ t = []).

(** The fields of a header: the two paths and, for each optional clause,
    the fields of its lines with the end of its last line. *)
Record header : Type := Header {
  hd_a : str;
  hd_b : str;
  hd_rename : option (str * str * str * str);
  hd_modes : option (str * str * str);
  hd_new : option (str * str);
  hd_deleted : option (str * str);
  hd_index : option (str * str * option str * str)
}.

Definition rename_lines (o : option (str * str * str * str)) : str :=
  match o with
  | Some (si, rf, rt, e) => rename_text si rf rt e
  | None => []
  end.

Definition mode_lines (o : option (str * str * str)) : str :=
  match o with
  | Some (om, nm, e) => mode_text om nm e
  | None => []
  end.

Definition new_file_line (o : option (str * str)) : str :=
  match o with
  | Some (v, e) => new_file_text v e
  | None => []
  end.

Definition deleted_file_line (o : option (str * str)) : str :=
  match o with
  | Some (v, e) => deleted_file_text v e
  | None => []
  end.

Definition index_line (o : option (str * str * option str * str)) : str :=
  match o with
  | Some (ac, bc, Some m, e) => index_text ac bc (txt " ") m e
  | Some (ac, bc, None, e) => index_text ac bc [] [] e
  | None => []
  end.

(** The header as text. *)
Definition header_text (hd : header) : str :=
  path_text (hd_a hd) (hd_b hd) ++ rename_lines (hd_rename hd) ++
  mode_lines (hd_modes hd) ++ new_file_line (hd_new hd) ++
  deleted_file_line (hd_deleted hd) ++ index_line (hd_index hd).

(** The groups of the pattern, from the fields. *)
Definition hd_similarity_index (hd : header) : option str :=
  option_map (fun '(si, _, _, _) => si) (hd_rename hd).
Definition hd_rename_from (hd : header) : option str :=
  option_map (fun '(_, rf, _, _) => rf) (hd_rename hd).
Definition hd_rename_to (hd : header) : option str :=
  option_map (fun '(_, _, rt, _) => rt) (hd_rename hd).
Definition hd_old_mode (hd : header) : option str :=
  option_map (fun '(om, _, _) => om) (hd_modes hd).
Definition hd_new_mode (hd : header) : option str :=
  option_map (fun '(_, nm, _) => nm) (hd_modes hd).
Definition hd_new_file_mode (hd : header) : option str :=
  option_map fst (hd_new hd).
Definition hd_deleted_file_mode (hd : header) : option str :=
  option_map fst (hd_deleted hd).
Definition hd_a_commit (hd : header) : option str :=
  option_map (fun '(ac, _, _, _) => ac) (hd_index hd).
Definition hd_b_commit (hd : header) : option str :=
  option_map (fun '(_, bc, _, _) => bc) (hd_index hd).
Definition hd_index_mode (hd : header) : option str :=
  match hd_index hd with
  | Some (_, _, m, _) => m
  | None => None
  end.

Definition header_groups (hd : header) : list (option str) :=
  [ Some (hd_a hd); Some (hd_b hd);
    hd_similarity_index hd; hd_rename_from hd; hd_rename_to hd;
    hd_old_mode hd; hd_new_mode hd;
    hd_new_file_mode hd; hd_deleted_file_mode hd;
    hd_a_commit hd; hd_b_commit hd; hd_index_mode hd ].

(** The groups a clause sets, over those set before. *)
Definition rename_marks (o : option (str * str * str * str))
    (mk : nat -> option str) : nat -> option str :=
  match o with
  | Some (si, rf, rt, _) =>
      fun i => if Nat.eqb i 5 then Some rt else
               if Nat.eqb i 4 then Some rf else
               if Nat.eqb i 3 then Some si else mk i
  | None => mk
  end.

Definition mode_marks (o : option (str * str * str))
    (mk : nat -> option str) : nat -> option str :=
  match o with
  | Some (om, nm, _) =>
      fun i => if Nat.eqb i 7 then Some nm else
               if Nat.eqb i 6 then Some om else mk i
  | None => mk
  end.

Definition new_file_marks (o : option (str * str))
    (mk : nat -> option str) : nat -> option str :=
  match o with
  | Some (v, _) => fun i => if Nat.eqb i 8 then Some v else mk i
  | None => mk
  end.

Definition deleted_file_marks (o : option (str * str))
    (mk : nat -> option str) : nat -> option str :=
  match o with
  | Some (v, _) => fun i => if Nat.eqb i 9 then Some v else mk i
  | None => mk
  end.

Definition index_marks (o : option (str * str * option str * str))
    (mk : nat -> option str) : nat -> option str :=
  match o with
  | Some (ac, bc, Some m, _) =>
      fun i => if Nat.eqb i 12 then Some m else
               if Nat.eqb i 11 then Some bc else
               if Nat.eqb i 10 then Some ac else mk i
  | Some (ac, bc, None, _) =>
      fun i => if Nat.eqb i 11 then Some bc else
               if Nat.eqb i 10 then Some ac else mk i
  | None => mk
  end.

(** The matcher stands at a line start, or nothing is left. *)
Definition line_ready (sn rs : str) : Prop :=
  at_bol (Cursor sn rs (fun _ => None)) = true \/ rs = [].

(** A clause that is present has fields of the classes of the pattern
    and a last line that [closes]; where a clause is absent, the text at
    its place does not start with its keyword. *)
Definition wf_rename (o : option (str * str * str * str)) (t : str) : Prop :=
  match o with
  | Some (si, rf, rt, e) =>
      run_of digit si /\ run_of nonspace rf /\ run_of nonspace rt /\
      closes e t
  | None => PyStr.drop_prefix (txt "similarity index ") t = None
  end.

Definition wf_modes (o : option (str * str * str)) (t : str) : Prop :=
  match o with
  | Some (om, nm, e) => run_of digit om /\ run_of digit nm /\ closes e t
  | None => PyStr.drop_prefix (txt "old mode ") t = None
  end.

Definition wf_new (o : option (str * str)) (t : str) : Prop :=
  match o with
  | Some (v, e) => run_of dot v /\ closes e t
  | None => PyStr.drop_prefix (txt "new file mode ") t = None
  end.

Definition wf_deleted (o : option (str * str)) (t : str) : Prop :=
  match o with
  | Some (v, e) => run_of dot v /\ closes e t
  | None => PyStr.drop_prefix (txt "deleted file mode ") t = None
  end.

Definition wf_index (o : option (str * str * option str * str)) (t : str)
    : Prop :=
  match o with
  | Some (ac, bc, m, e) =>
      run_of hexdigit ac /\ run_of hexdigit bc /\
      match m with Some m' => run_of dot m' | None => True end /\
      closes e t
  | None => PyStr.drop_prefix (txt "index ") t = None
  end.

(** A header followed by the hunk text [body], well formed. *)
Definition wf_header (hd : header) (body : str) : Prop :=
  run_of nonspace (hd_a hd) /\ run_of nonspace (hd_b hd) /\
  wf_rename (hd_rename hd)
    (mode_lines (hd_modes hd) ++ new_file_line (hd_new hd) ++
     deleted_file_line (hd_deleted hd) ++ index_line (hd_index hd) ++ body) /\
  wf_modes (hd_modes hd)
    (new_file_line (hd_new hd) ++ deleted_file_line (hd_deleted hd) ++
     index_line (hd_index hd) ++ body) /\
  wf_new (hd_new hd)
    (deleted_file_line (hd_deleted hd) ++ index_line (hd_index hd) ++ body) /\
  wf_deleted (hd_deleted hd) (index_line (hd_index hd) ++ body) /\
  wf_index (hd_index hd) body.

(** The first of the values that is there. *)
Definition first_present (a b : option str) : option str :=
  match a with
  | Some v => Some v
  | None => b
  end.

Definition present (a : option str) : bool :=
  match a with
  | Some _ => true
  | None => false
  end.

(** The record such a segment stands for: the paths and ids as
    written, the old mode from the [old mode] line or else the
    [deleted file mode] line, the new mode from the [new mode] line or
    else the [new file mode] line or else the [index] line, the flags by
    the presence of their lines, and the hunk text. *)
Definition header_record {Repo : Type} (repo : Repo) (hd : header)
    (body : str) : Diff Repo :=
  MkDiff repo (Some (hd_a hd)) (Some (hd_b hd))
    (hd_a_commit hd) (hd_b_commit hd)
    (first_present (hd_old_mode hd) (hd_deleted_file_mode hd))
    (first_present (hd_new_mode hd)
       (first_present (hd_new_file_mode hd) (hd_index_mode hd)))
    (present (hd_new_file_mode hd)) (present (hd_deleted_file_mode hd))
    (hd_rename_from hd) (hd_rename_to hd)
    (match hd_rename hd with
     | Some (_, rf, rt, _) => if list_eq_dec ascii_dec rf rt then false else true
     | None => false
     end)
    body.

(** The text of a diff whose segments are [segs]: every segment behind
    a [diff --git], the next [diff --git] on a line of its own. *)
Definition diff_text (segs : list str) : str :=
  match segs with
  | [] => []
  | _ => txt "diff --git" ++ PyStr.join delim segs
  end.

(** ** Sample inputs *)

(** The records of a text, or none when the parser raises. *)
Definition records_of (text : str) : list (Diff unit) :=
  match parse tt text with
  | inr ds => ds
  | inl _ => []
  end.

(** A new empty file (scenario A of the specification). *)
Definition sample_new_file : str :=
  ln "diff --git a/x.txt b/x.txt" ++ ln "new file mode 100644" ++
  ln "index 0000000..e69de29".

(** A segment whose only mode is the one behind the blob ids. *)
Definition sample_index_mode : str :=
  ln "diff --git a/f b/f" ++ ln "index a1b2c3..d4e5f6 100644" ++
  ln "--- a/f" ++ ln "+++ b/f".

(** A rename followed by a content change: two segments. *)
Definition sample_two_files : str :=
  ln "diff --git a/old.txt b/new.txt" ++ ln "similarity index 100%" ++
  ln "rename from old.txt" ++ ln "rename to new.txt" ++
  ln "diff --git a/f b/f" ++ ln "index a1b2c3..d4e5f6 100644" ++
  ln "--- a/f" ++ ln "+++ b/f" ++ ln "@@ -1 +1 @@" ++ ln "-a" ++ ln "+b".

(** Two bare header lines, one behind the other. *)
Definition sample_bare_headers : str :=
  ln "diff --git a/x b/y" ++ ln "diff --git a/z b/w".

(** A segment with a new-file line and a deleted-file line. *)
Definition sample_new_and_deleted : str :=
  ln "diff --git a/x b/x" ++ ln "new file mode 100644" ++
  ln "deleted file mode 100644".

(** A segment whose [new file mode] line stands behind the [index] line,
    out of the order of the pattern. *)
Definition sample_out_of_order : str :=
  txt " a/f b/f" ++ [nl] ++ ln "index a1b2c3..d4e5f6" ++
  ln "new file mode 100644".

(** The headers of [sample_two_files]: the rename, whose last line
    ends at the next [diff --git], and the content change. *)
Definition sample_hd_rename : header :=
  Header (txt "old.txt") (txt "new.txt")
    (Some (txt "100", txt "old.txt", txt "new.txt", [])) None None None None.

Definition sample_hd_change : header :=
  Header (txt "f") (txt "f") None None None None
    (Some (txt "a1b2c3", txt "d4e5f6", Some (txt "100644"), [nl])).

Definition sample_body_change : str :=
  ln "--- a/f" ++ ln "+++ b/f" ++ ln "@@ -1 +1 @@" ++ ln "-a" ++ ln "+b".

Definition sample_items : list (header * str) :=
  [(sample_hd_rename, []); (sample_hd_change, sample_body_change)].

(** The header of [sample_new_file]. *)
Definition sample_hd_new : header :=
  Header (txt "x.txt") (txt "x.txt") None None
    (Some (txt "100644", [nl])) None
    (Some (txt "0000000", txt "e69de29", None, [nl])).

(** An outside for the decorators: the test function ends as [test]
    says, looking up the commit fails unless [setup_ok], and every other
    call returns. *)
Inductive sample_exn : Type := AssertionFailed | KeyboardInterrupt.

Definition sample_is_Exception (e : sample_exn) : bool :=
  match e with
  | AssertionFailed => true
  | KeyboardInterrupt => false
  end.

Definition sample_env (test : sample_exn + nat) (setup_ok : bool)
    (_ : list (Helper.event nat sample_exn str str))
    (c : Helper.Call str str) : sample_exn + Helper.resp nat str str c :=
  match c return sample_exn + Helper.resp nat str str c with
  | Helper.Mktemp _ _ => inr (txt "/tmp/t")
  | Helper.Getcwd => inr (txt "/home")
  | Helper.TestDir _ | Helper.TestRepo _ => test
  | Helper.Clone _ p _ => inr p
  | Helper.LookupCommit _ ref =>
      if setup_ok then inr ref else inl AssertionFailed
  | Helper.Mkdir _ | Helper.Rmtree _ | Helper.GcCollect
  | Helper.LogInfo _ _ | Helper.SetHeadCommit _ _ | Helper.CheckoutHead _
  | Helper.Chdir _ | Helper.ClearCache _ => inr tt
  end.

Definition sample_dir_run (test : sample_exn + nat)
    : list (Helper.event nat sample_exn str str) * bool * (sample_exn + nat) :=
  Helper.with_rw_directory sample_is_Exception (sample_env test true)
    (txt "TestDiff") (txt "test_x") [] false.

Definition sample_repo_run (test : sample_exn + nat) (setup_ok : bool)
    : list (Helper.event nat sample_exn str str) * option str *
      (sample_exn + nat) :=
  Helper.with_rw_repo (fun r : str => r) (sample_env test setup_ok)
    (txt "0.1.6") false (txt "/repo") (txt "test_x") [] None.

Definition sample_dir_ok_trace :=
  Eval vm_compute in fst (fst (sample_dir_run (inr 7))).

Definition sample_dir_failed_trace :=
  Eval vm_compute in fst (fst (sample_dir_run (inl AssertionFailed))).

Definition sample_dir_interrupted_trace :=
  Eval vm_compute in fst (fst (sample_dir_run (inl KeyboardInterrupt))).

Definition sample_repo_ok_trace :=
  Eval vm_compute in fst (fst (sample_repo_run (inr 7) true)).

Definition sample_repo_interrupted_trace :=
  Eval vm_compute in fst (fst (sample_repo_run (inl KeyboardInterrupt) true)).

Definition sample_repo_setup_trace :=
  Eval vm_compute in fst (fst (sample_repo_run (inr 7) false)).

Definition sample_index_mode_records : list (Diff unit) :=
  Eval vm_compute in records_of sample_index_mode.

Definition sample_two_files_records : list (Diff unit) :=
  Eval vm_compute in records_of sample_two_files.

Definition sample_new_and_deleted_records : list (Diff unit) :=
  Eval vm_compute in records_of sample_new_and_deleted.

(* ================================================================== *)
(** * Properties *)

(** ** Splitting *)

Module PyStrFacts.
Import PyStr.

Lemma drop_prefix_app (p t : str) : drop_prefix p (p ++ t) = Some t.
Proof.
  induction p as [|a p IH]; simpl; [reflexivity|].
  now rewrite Ascii.eqb_refl.
Qed.

Lemma drop_prefix_inv (p s t : str) :
  drop_prefix p s = Some t -> s = p ++ t.
Proof.
  revert s; induction p as [|a p IH]; simpl; intros s H.
  - now inversion H.
  - destruct s as [|b s]; [discriminate|].
    destruct (Ascii.eqb a b) eqn:E; [|discriminate].
    apply Ascii.eqb_eq in E; subst b. f_equal. now apply IH.
Qed.

Lemma starts_with_app (p t : str) : starts_with p (p ++ t) = true.
Proof. unfold starts_with. now rewrite drop_prefix_app. Qed.

Lemma starts_with_inv (p s : str) :
  starts_with p s = true -> exists t, s = p ++ t.
Proof.
  unfold starts_with. destruct (drop_prefix p s) as [t|] eqn:E; [|discriminate].
  intros _. exists t. now apply drop_prefix_inv.
Qed.

Lemma split_scan_skip (sep : str) (k : nat) (s : str) :
  k <= length s -> split_scan sep k s = split_scan sep 0 (skipn k s).
Proof.
  revert k; induction s as [|c s IH]; intros [|k] H; simpl in *;
    try reflexivity; try lia.
  apply IH. lia.
Qed.

(** The three equations of [split]. *)
Lemma split_nil (sep : str) : split sep [] = [[]].
Proof. reflexivity. Qed.

Lemma split_at_sep (sep post : str) :
  sep <> [] -> split sep (sep ++ post) = [] :: split sep post.
Proof.
  destruct sep as [|a sep]; [congruence|]. intros _.
  unfold split.
  change ((a :: sep) ++ post) with (a :: (sep ++ post)).
  cbn [split_scan].
  change (a :: sep ++ post) with ((a :: sep) ++ post).
  rewrite starts_with_app. f_equal.
  rewrite split_scan_skip.
  - cbn [length]. rewrite Nat.sub_succ, Nat.sub_0_r.
    now rewrite skipn_app, skipn_all, Nat.sub_diag.
  - cbn [length]. rewrite length_app. lia.
Qed.

Lemma split_step (sep : str) (c : ascii) (s : str) :
  starts_with sep (c :: s) = false ->
  split sep (c :: s) = push c (split sep s).
Proof. unfold split. cbn [split_scan]. now intros ->. Qed.

Lemma split_not_nil (sep s : str) : split sep s <> [].
Proof.
  unfold split. generalize 0.
  induction s as [|c s IH]; intros k; simpl; [discriminate|].
  destruct k; [|apply IH].
  destruct (starts_with sep (c :: s)); [discriminate|].
  destruct (split_scan sep 0 s); discriminate.
Qed.

(** Induction along the scan of [split]. *)
Lemma split_ind (sep : str) (P : str -> Prop) :
  sep <> [] ->
  P [] ->
  (forall post, P post -> P (sep ++ post)) ->
  (forall c s, starts_with sep (c :: s) = false -> P s -> P (c :: s)) ->
  forall s, P s.
Proof.
  intros Hsep Hnil Hsepc Hstep s.
  remember (length s) as n eqn:Hn.
  revert s Hn. induction n as [n IH] using lt_wf_ind. intros s Hn.
  destruct s as [|c s]; [exact Hnil|].
  destruct (starts_with sep (c :: s)) eqn:E.
  - apply starts_with_inv in E. destruct E as [t E]. rewrite E.
    apply Hsepc. apply (IH (length t)); [|reflexivity].
    subst n. rewrite E, length_app.
    destruct sep; [congruence|simpl; lia].
  - apply Hstep; [exact E|].
    apply (IH (length s)); [subst n; simpl; lia|reflexivity].
Qed.

Lemma join_push (sep : str) (c : ascii) (ps : list str) :
  ps <> [] -> join sep (push c ps) = c :: join sep ps.
Proof.
  destruct ps as [|p [|q ps]]; [congruence| |]; intros _; reflexivity.
Qed.

Lemma join_cons (sep p : str) (ps : list str) :
  ps <> [] -> join sep (p :: ps) = p ++ sep ++ join sep ps.
Proof. destruct ps; [congruence|reflexivity]. Qed.

(** Joining the pieces with the separator gives the text back. *)
Lemma join_split (sep s : str) : sep <> [] -> join sep (split sep s) = s.
Proof.
  intros Hsep. pattern s. apply (split_ind sep); [assumption| | |]; clear s.
  - reflexivity.
  - intros post IH. rewrite split_at_sep by assumption.
    rewrite join_cons by apply split_not_nil. now rewrite IH.
  - intros c s E IH. rewrite split_step by assumption.
    rewrite join_push by apply split_not_nil. now rewrite IH.
Qed.

Lemma split_head_prefix (sep s p : str) (ps : list str) :
  sep <> [] -> split sep s = p :: ps -> exists t, s = p ++ t.
Proof.
  intros Hsep E. pose proof (join_split sep s Hsep) as J. rewrite E in J.
  destruct ps as [|q ps].
  - exists []. simpl in J. now rewrite app_nil_r.
  - rewrite join_cons in J by discriminate. eauto.
Qed.

Lemma not_occurs_nil (sep : str) : sep <> [] -> ~ occurs sep [].
Proof.
  intros Hsep (pre & post & E). symmetry in E.
  apply app_eq_nil in E. destruct E as [_ E].
  apply app_eq_nil in E. destruct E; congruence.
Qed.

(** No piece of a split contains the separator. *)
Lemma split_pieces_clean (sep s : str) :
  sep <> [] -> Forall (fun p => ~ occurs sep p) (split sep s).
Proof.
  intros Hsep. pattern s. apply (split_ind sep); [assumption| | |]; clear s.
  - constructor; [now apply not_occurs_nil|constructor].
  - intros post IH. rewrite split_at_sep by assumption.
    constructor; [now apply not_occurs_nil|exact IH].
  - intros c s E IH. rewrite split_step by assumption.
    destruct (split sep s) as [|p ps] eqn:Es; [now apply split_not_nil in Es|].
    inversion IH as [|? ? Hp Hps]; subst. simpl. constructor; [|exact Hps].
    intros (pre & post & Ep).
    destruct pre as [|a pre]; simpl in Ep.
    + destruct (split_head_prefix sep s p ps Hsep Es) as [t Et].
      assert (starts_with sep (c :: s) = true) as F.
      { rewrite Et. change (c :: p ++ t) with ((c :: p) ++ t).
        rewrite Ep, <- app_assoc. apply starts_with_app. }
      congruence.
    + inversion Ep; subst. apply Hp. now exists pre, post.
Qed.

Lemma occurrences_zero (sep s : str) :
  occurrences sep s = 0 -> ~ occurs sep s \/ sep = [].
Proof.
  induction s as [|c s IH]; intros H.
  - destruct sep; [now right|left]. now apply not_occurs_nil.
  - simpl in H. destruct (starts_with sep (c :: s)) eqn:E; [discriminate|].
    destruct (IH H) as [N|N]; [left|now right].
    intros (pre & post & Ep). destruct pre as [|a pre]; simpl in Ep.
    + rewrite Ep, starts_with_app in E. discriminate.
    + inversion Ep; subst. apply N. now exists pre, post.
Qed.

Lemma split_no_occurrence (sep s : str) :
  occurrences sep s = 0 -> split sep s = [s].
Proof.
  induction s as [|c s IH]; intros H; [reflexivity|].
  simpl in H. destruct (starts_with sep (c :: s)) eqn:E; [discriminate|].
  rewrite split_step by assumption. now rewrite IH.
Qed.

Lemma push_length (c : ascii) (ps : list str) :
  ps <> [] -> length (push c ps) = length ps.
Proof. destruct ps; [congruence|reflexivity]. Qed.

Lemma starts_with_other (a c : ascii) (w s : str) :
  c <> a -> starts_with (a :: w) (c :: s) = false.
Proof.
  intros N. unfold starts_with. simpl.
  destruct (Ascii.eqb a c) eqn:E; [|reflexivity].
  apply Ascii.eqb_eq in E. congruence.
Qed.

Lemma occurrences_skip (a : ascii) (w u post : str) :
  ~ In a u -> occurrences (a :: w) (u ++ post) = occurrences (a :: w) post.
Proof.
  induction u as [|c u IH]; intros N; [reflexivity|].
  change ((c :: u) ++ post) with (c :: (u ++ post)).
  cbn [occurrences]. rewrite starts_with_other.
  - apply IH. intros F. apply N. now right.
  - intros F. apply N. now left.
Qed.

(** A separator whose first character does not come back inside it
    cannot overlap itself: the pieces are one more than the places where
    it starts. *)
Lemma split_length (a : ascii) (w s : str) :
  ~ In a w -> length (split (a :: w) s) = S (occurrences (a :: w) s).
Proof.
  intros N. pattern s. apply (split_ind (a :: w)); [discriminate| | |]; clear s.
  - reflexivity.
  - intros post IH. rewrite split_at_sep by discriminate.
    cbn [length]. rewrite IH. f_equal.
    change ((a :: w) ++ post) with (a :: (w ++ post)).
    cbn [occurrences].
    change (a :: w ++ post) with ((a :: w) ++ post).
    rewrite starts_with_app, occurrences_skip by assumption. reflexivity.
  - intros c s E IH. rewrite split_step by assumption.
    rewrite push_length by apply split_not_nil.
    rewrite IH. cbn [occurrences]. now rewrite E.
Qed.

End PyStrFacts.

(** ** The matcher against the relation *)

Module ReFacts.
Import PyStr PyStrFacts Re.

Lemma plus_from_sound cls k mk rs : forall sn e,
  plus_from cls k mk sn rs = Some e ->
  exists w post, w <> [] /\ forallb cls w = true /\ rs = w ++ post /\
                 k (Cursor (rev w ++ sn) post mk) = Some e.
Proof.
  induction rs as [|x rs IH]; intros sn e H; simpl in H; [discriminate|].
  destruct (cls x) eqn:Hx; [|discriminate].
  destruct (plus_from cls k mk (x :: sn) rs) as [e'|] eqn:Hr.
  - inversion H; subst e'. destruct (IH _ _ Hr) as (w & post & _ & Hw & -> & Hk).
    exists (x :: w), post. repeat split; [discriminate| |].
    + simpl. now rewrite Hx, Hw.
    + simpl. now rewrite <- app_assoc.
  - exists [x], rs. repeat split; [discriminate| |exact H].
    simpl. now rewrite Hx.
Qed.

Lemma plus_from_complete cls k mk w : forall sn post,
  w <> [] -> forallb cls w = true ->
  k (Cursor (rev w ++ sn) post mk) <> None ->
  plus_from cls k mk sn (w ++ post) <> None.
Proof.
  induction w as [|x w IH]; intros sn post Hne Hw Hk; [congruence|].
  simpl in Hw. apply andb_prop in Hw. destruct Hw as [Hx Hw].
  simpl. rewrite Hx.
  destruct w as [|y w].
  - simpl in *. destruct (plus_from cls k mk (x :: sn) post); congruence.
  - assert (plus_from cls k mk (x :: sn) ((y :: w) ++ post) <> None) as G.
    { apply IH; [discriminate|exact Hw|].
      simpl in *. now rewrite <- !app_assoc in *. }
    destruct (plus_from cls k mk (x :: sn) ((y :: w) ++ post)); congruence.
Qed.

(** Whatever the matcher returns was reached along the relation and
    accepted by the continuation. *)
Lemma run_sound (r : regex) : forall c k e,
  run r c k = Some e -> exists c', den r c c' /\ k c' = Some e.
Proof.
  induction r as [w|cls|r1 IH1 r2 IH2|r1 IH1 r2 IH2|r1 IH1|n r1 IH1| |];
    intros c k e H; simpl in H.
  - destruct (drop_prefix w (rest c)) as [post|] eqn:E; [|discriminate].
    apply drop_prefix_inv in E. eexists. split; [|exact H].
    simpl. now exists post.
  - apply plus_from_sound in H. destruct H as (w & post & H1 & H2 & H3 & H4).
    eexists. split; [|exact H4]. simpl. now exists w, post.
  - apply IH1 in H. destruct H as (c1 & D1 & H).
    apply IH2 in H. destruct H as (c2 & D2 & H).
    exists c2. split; [|exact H]. simpl. now exists c1.
  - destruct (run r1 c k) as [e1|] eqn:E1.
    + inversion H; subst e1. apply IH1 in E1. destruct E1 as (c' & D & Hk).
      exists c'. split; [now left|exact Hk].
    + apply IH2 in H. destruct H as (c' & D & Hk).
      exists c'. split; [now right|exact Hk].
  - destruct (run r1 c k) as [e1|] eqn:E1.
    + inversion H; subst e1. apply IH1 in E1. destruct E1 as (c' & D & Hk).
      exists c'. split; [now left|exact Hk].
    + exists c. split; [now right|exact H].
  - apply IH1 in H. destruct H as (c1 & D & Hk).
    eexists. split; [|exact Hk]. simpl. now exists c1.
  - destruct (at_bol c) eqn:E; [|discriminate]. exists c. now repeat split.
  - destruct (at_eol c) eqn:E; [|discriminate]. exists c. now repeat split.
Qed.

(** Every way of matching is tried: the matcher fails only when the
    continuation rejects every position the relation reaches. *)
Lemma run_complete (r : regex) : forall c c' k,
  den r c c' -> k c' <> None -> run r c k <> None.
Proof.
  induction r as [w|cls|r1 IH1 r2 IH2|r1 IH1 r2 IH2|r1 IH1|n r1 IH1| |];
    intros c c' k D Hk; simpl in D |- *.
  - destruct D as (post & E & ->). rewrite E, drop_prefix_app. exact Hk.
  - destruct D as (w & post & Hne & Hw & E & ->). rewrite E.
    now apply plus_from_complete.
  - destruct D as (c1 & D1 & D2).
    apply (IH1 c c1); [exact D1|]. now apply (IH2 c1 c').
  - destruct D as [D|D].
    + pose proof (IH1 _ _ _ D Hk). destruct (run r1 c k); congruence.
    + pose proof (IH2 _ _ _ D Hk). destruct (run r1 c k); congruence.
  - destruct D as [D|D].
    + pose proof (IH1 _ _ _ D Hk). destruct (run r1 c k); congruence.
    + subst c'. destruct (run r1 c k); congruence.
  - destruct D as (c1 & D & ->). now apply (IH1 c c1).
  - destruct D as (E & ->). now rewrite E.
  - destruct D as (E & ->). now rewrite E.
Qed.

(** A chain of optional parts never makes the match fail. *)
Lemma run_skippable (r : regex) : forall c k,
  skippable r = true -> k c <> None -> run r c k <> None.
Proof.
  induction r as [w|cls|r1 IH1 r2 IH2|r1 IH1 r2 IH2|r1 IH1|n r1 IH1| |];
    intros c k S Hk; simpl in S; try discriminate.
  - apply andb_prop in S. destruct S as [S1 S2].
    simpl. apply IH1; [exact S1|]. now apply IH2.
  - simpl. destruct (run r1 c k); congruence.
Qed.

(** The relation moves text from ahead of the position to behind it. *)
Lemma den_consumes (r : regex) : forall c c',
  den r c c' ->
  exists w, rest c = w ++ rest c' /\ seen c' = rev w ++ seen c.
Proof.
  induction r as [w|cls|r1 IH1 r2 IH2|r1 IH1 r2 IH2|r1 IH1|n r1 IH1| |];
    intros c c' D; simpl in D.
  - destruct D as (post & E & ->). now exists w.
  - destruct D as (w & post & _ & _ & E & ->). now exists w.
  - destruct D as (c1 & D1 & D2).
    destruct (IH1 _ _ D1) as (w1 & E1 & F1).
    destruct (IH2 _ _ D2) as (w2 & E2 & F2).
    exists (w1 ++ w2). split.
    + now rewrite E1, E2, app_assoc.
    + now rewrite F2, F1, rev_app_distr, app_assoc.
  - destruct D as [D|D]; eauto.
  - destruct D as [D| ->]; eauto. now exists [].
  - destruct D as (c1 & D & ->). simpl. eauto.
  - destruct D as (_ & ->). now exists [].
  - destruct D as (_ & ->). now exists [].
Qed.

Lemma span_app (c c' : cursor) (w : str) :
  seen c' = rev w ++ seen c -> span c c' = w.
Proof.
  intros E. unfold span. rewrite E, length_app, Nat.add_sub.
  rewrite firstn_app, firstn_all, Nat.sub_diag. simpl.
  now rewrite app_nil_r, rev_involutive.
Qed.

Lemma den_nonempty (r : regex) : forall c c' w,
  nonempty r = true -> den r c c' -> seen c' = rev w ++ seen c -> w <> [].
Proof.
  assert (forall (u v t : str), rev u ++ t = rev v ++ t -> u = v) as cancel.
  { intros u v t E. apply app_inv_tail in E.
    now rewrite <- (rev_involutive u), E, rev_involutive. }
  induction r as [w0|cls|r1 IH1 r2 IH2|r1 IH1 r2 IH2|r1 IH1|n r1 IH1| |];
    intros c c' w N D E; simpl in N, D; try discriminate.
  - destruct D as (post & _ & ->). simpl in E. apply cancel in E. subst w.
    destruct w0; congruence.
  - destruct D as (w1 & post & N1 & _ & _ & ->). simpl in E.
    apply cancel in E. now subst.
  - destruct D as (c1 & D1 & D2).
    destruct (den_consumes _ _ _ D1) as (w1 & _ & F1).
    destruct (den_consumes _ _ _ D2) as (w2 & _ & F2).
    rewrite F2, F1, app_assoc, <- rev_app_distr in E. apply cancel in E.
    subst w. apply orb_prop in N. destruct N as [N|N].
    + pose proof (IH1 _ _ _ N D1 F1). destruct w1; [congruence|discriminate].
    + pose proof (IH2 _ _ _ N D2 F2).
      destruct w1; [exact H|discriminate].
  - apply andb_prop in N. destruct N as [N1 N2]. destruct D as [D|D]; eauto.
  - destruct D as (c1 & D & ->). simpl in E. eauto.
Qed.

(** A regex leaves the groups it does not contain alone. *)
Lemma den_frame (r : regex) (n : nat) : forall c c',
  den r c c' -> ~ In n (groups_of r) -> marks c' n = marks c n.
Proof.
  induction r as [w|cls|r1 IH1 r2 IH2|r1 IH1 r2 IH2|r1 IH1|m r1 IH1| |];
    intros c c' D N; simpl in D, N.
  - now destruct D as (post & _ & ->).
  - now destruct D as (w & post & _ & _ & _ & ->).
  - destruct D as (c1 & D1 & D2). rewrite in_app_iff in N.
    rewrite (IH2 _ _ D2), (IH1 _ _ D1); tauto.
  - rewrite in_app_iff in N. destruct D as [D|D]; [apply IH1|apply IH2]; tauto.
  - destruct D as [D| ->]; [now apply IH1|reflexivity].
  - destruct D as (c1 & D & ->). simpl.
    destruct (Nat.eqb n m) eqn:E.
    + apply Nat.eqb_eq in E. symmetry in E. tauto.
    + apply IH1; tauto.
  - now destruct D as (_ & ->).
  - now destruct D as (_ & ->).
Qed.

(** Groups around a regex that needs at least one character never hold
    the empty text. *)
Lemma den_marks_nonempty (r : regex) : forall c c',
  groups_nonempty r = true -> den r c c' ->
  (forall n v, marks c n = Some v -> v <> []) ->
  forall n v, marks c' n = Some v -> v <> [].
Proof.
  induction r as [w|cls|r1 IH1 r2 IH2|r1 IH1 r2 IH2|r1 IH1|m r1 IH1| |];
    intros c c' G D H; simpl in G, D.
  - now destruct D as (post & _ & ->).
  - now destruct D as (w & post & _ & _ & _ & ->).
  - apply andb_prop in G. destruct G as [G1 G2].
    destruct D as (c1 & D1 & D2). eauto.
  - apply andb_prop in G. destruct G as [G1 G2]. destruct D as [D|D]; eauto.
  - destruct D as [D| ->]; eauto.
  - apply andb_prop in G. destruct G as [G1 G2].
    destruct D as (c1 & D & ->). simpl. intros n v E.
    destruct (Nat.eqb n m).
    + inversion E; subst v.
      destruct (den_consumes _ _ _ D) as (w & _ & F).
      rewrite (span_app _ _ _ F). now apply (den_nonempty r1 c c1).
    + now apply (IH1 c c1 G2 D H n).
  - now destruct D as (_ & ->).
  - now destruct D as (_ & ->).
Qed.

End ReFacts.

(** ** The shape of a matched header *)

Module HeaderFacts.
Import PyStr PyStrFacts Re ReFacts.

Lemma moved_refl (c : cursor) : moved [] c c.
Proof. now split. Qed.

Lemma moved_trans (u v : str) (c c1 c2 : cursor) :
  moved u c c1 -> moved v c1 c2 -> moved (u ++ v) c c2.
Proof.
  unfold moved. intros [E1 F1] [E2 F2]. split.
  - now rewrite E1, E2, app_assoc.
  - now rewrite F2, F1, rev_app_distr, app_assoc.
Qed.

Lemma den_lit (w : str) (c c' : cursor) :
  den (Lit w) c c' -> moved w c c' /\ marks c' = marks c.
Proof. simpl. intros (post & E & ->). unfold moved. simpl. auto. Qed.

Lemma den_group_plus (n : nat) (cls : ascii -> bool) (c c' : cursor) :
  den (Group n (Plus cls)) c c' ->
  exists w, run_of cls w /\ moved w c c' /\
            marks c' = (fun i => if Nat.eqb i n then Some w else marks c i).
Proof.
  simpl. intros (c1 & (w & post & N & F & E & ->) & ->).
  exists w. unfold moved, run_of, set_mark. simpl.
  rewrite (span_app c _ w) by reflexivity. auto.
Qed.

Lemma den_line_end (c c' : cursor) :
  den line_end c c' -> exists e, ends e c' /\ moved e c c' /\ marks c' = marks c.
Proof.
  simpl. intros [(post & E & ->)|(E & ->)].
  - exists [nl]. unfold ends, moved. simpl. auto.
  - exists []. unfold ends, moved. simpl. auto.
Qed.

Lemma den_bol (c c' : cursor) : den Bol c c' -> at_bol c = true /\ c' = c.
Proof. simpl. auto. Qed.

(** Opens a clause into its steps. *)
Ltac den_steps :=
  repeat match goal with
  | H : den (_ >> _) _ _ |- _ =>
      let c := fresh "c" in let D := fresh "D" in
      destruct H as (c & D & H)
  end;
  repeat match goal with
  | H : den Bol _ _ |- _ =>
      let B := fresh "B" in apply den_bol in H; destruct H as [B ->]
  | H : den (Lit _) _ _ |- _ =>
      let M := fresh "M" in let K := fresh "K" in
      apply den_lit in H; destruct H as [M K]
  | H : den (Group _ (Plus _)) _ _ |- _ =>
      let w := fresh "w" in let R := fresh "R" in
      let M := fresh "M" in let K := fresh "K" in
      apply den_group_plus in H; destruct H as (w & R & M & K)
  | H : den line_end _ _ |- _ =>
      let e := fresh "e" in let E := fresh "E" in
      let M := fresh "M" in let K := fresh "K" in
      apply den_line_end in H; destruct H as (e & E & M & K)
  end.

Ltac moved_chain :=
  first [eassumption | eapply moved_trans; [eassumption|moved_chain]].

Ltac marks_chain :=
  repeat match goal with
  | K : marks _ = _ |- _ => rewrite K; clear K
  end; reflexivity.

Lemma path_clause_inv (c c' : cursor) :
  den path_clause c c' ->
  exists a b, run_of nonspace a /\ run_of nonspace b /\
    moved (path_text a b) c c' /\
    marks c' = (fun i => if Nat.eqb i 2 then Some b else
                         if Nat.eqb i 1 then Some a else marks c i).
Proof.
  unfold path_clause. intros D. den_steps.
  do 2 eexists. split; [|split; [|split]].
  3: (unfold path_text; moved_chain).
  all: try eassumption. marks_chain.
Qed.

Lemma rename_clause_inv (c c' : cursor) :
  den rename_clause c c' ->
  exists si rf rt e,
    run_of digit si /\ run_of nonspace rf /\ run_of nonspace rt /\
    ends e c' /\ at_bol c = true /\
    moved (rename_text si rf rt e) c c' /\
    marks c' = (fun i => if Nat.eqb i 5 then Some rt else
                         if Nat.eqb i 4 then Some rf else
                         if Nat.eqb i 3 then Some si else marks c i).
Proof.
  unfold rename_clause. intros D. den_steps.
  do 4 eexists. split; [|split; [|split; [|split; [|split; [|split]]]]].
  6: (unfold rename_text; moved_chain).
  all: try eassumption. marks_chain.
Qed.

Lemma mode_clause_inv (c c' : cursor) :
  den mode_clause c c' ->
  exists om nm e,
    run_of digit om /\ run_of digit nm /\ ends e c' /\ at_bol c = true /\
    moved (mode_text om nm e) c c' /\
    marks c' = (fun i => if Nat.eqb i 7 then Some nm else
                         if Nat.eqb i 6 then Some om else marks c i).
Proof.
  unfold mode_clause. intros D. den_steps.
  do 3 eexists. split; [|split; [|split; [|split; [|split]]]].
  5: (unfold mode_text; moved_chain).
  all: try eassumption. marks_chain.
Qed.

Lemma new_file_clause_inv (c c' : cursor) :
  den new_file_clause c c' ->
  exists v e,
    run_of dot v /\ ends e c' /\ at_bol c = true /\
    moved (new_file_text v e) c c' /\
    marks c' = (fun i => if Nat.eqb i 8 then Some v else marks c i).
Proof.
  unfold new_file_clause. intros D. den_steps.
  do 2 eexists. split; [|split; [|split; [|split]]].
  4: (unfold new_file_text; moved_chain).
  all: try eassumption. marks_chain.
Qed.

Lemma deleted_file_clause_inv (c c' : cursor) :
  den deleted_file_clause c c' ->
  exists v e,
    run_of dot v /\ ends e c' /\ at_bol c = true /\
    moved (deleted_file_text v e) c c' /\
    marks c' = (fun i => if Nat.eqb i 9 then Some v else marks c i).
Proof.
  unfold deleted_file_clause. intros D. den_steps.
  do 2 eexists. split; [|split; [|split; [|split]]].
  4: (unfold deleted_file_text; moved_chain).
  all: try eassumption. marks_chain.
Qed.

Lemma index_clause_inv (c c' : cursor) :
  den index_clause c c' ->
  exists ac bc sp bm e,
    run_of hexdigit ac /\ run_of hexdigit bc /\
    (sp = [] \/ sp = txt " ") /\
    ends e c' /\ at_bol c = true /\
    moved (index_text ac bc sp bm e) c c' /\
    ((bm = [] /\
      marks c' = (fun i => if Nat.eqb i 11 then Some bc else
                           if Nat.eqb i 10 then Some ac else marks c i)) \/
     (run_of dot bm /\
      marks c' = (fun i => if Nat.eqb i 12 then Some bm else
                           if Nat.eqb i 11 then Some bc else
                           if Nat.eqb i 10 then Some ac else marks c i))).
Proof.
  unfold index_clause. intros D.
  destruct D as (c0 & D0 & c1 & D1 & c2 & D2 & c3 & D3 & c4 & D4 &
                 c5 & D5 & c6 & D6 & D7).
  assert (exists sp, (sp = [] \/ sp = txt " ") /\ moved sp c4 c5 /\
                     marks c5 = marks c4) as (sp & Hsp & M5 & K5).
  { destruct D5 as [D5| ->].
    - apply den_lit in D5. destruct D5. exists (txt " "). auto.
    - exists []. split; [now left|]. split; [apply moved_refl|reflexivity]. }
  den_steps.
  destruct D6 as [D6| ->].
  - den_steps. eexists _, _, sp, _, _.
    split; [|split; [|split; [|split; [|split; [|split]]]]].
    6: (unfold index_text; moved_chain).
    all: try eassumption.
    right. split; [assumption|]. marks_chain.
  - eexists _, _, sp, [], _.
    split; [|split; [|split; [|split; [|split; [|split]]]]].
    6: (unfold index_text; cbn [app]; moved_chain).
    all: try eassumption.
    left. split; [reflexivity|]. marks_chain.
Qed.


Lemma ends_stop (e : str) (c : cursor) : ends e c -> line_stop e.
Proof. unfold ends, line_stop. tauto. Qed.

(** The match object of a segment comes from a chain of positions, one
    step per clause of the pattern. *)
Lemma header_chain (seg : str) (h : Match) :
  diff_header seg = Some h ->
  exists c1 c2 c3 c4 c5 c6,
    den path_clause (start_cursor seg) c1 /\
    den (Opt rename_clause) c1 c2 /\
    den (Opt mode_clause) c2 c3 /\
    den (Opt new_file_clause) c3 c4 /\
    den (Opt deleted_file_clause) c4 c5 /\
    den (Opt index_clause) c5 c6 /\
    h = match_of 12 c6.
Proof.
  unfold diff_header, match_. intros H.
  destruct (run diff_header_re (start_cursor seg) Some) as [e|] eqn:R;
    [|discriminate].
  inversion H; subst h; clear H.
  apply run_sound in R. destruct R as (c' & D & E).
  inversion E; subst e; clear E.
  destruct D as (c1 & D1 & c2 & D2 & c3 & D3 & c4 & D4 & c5 & D5 & D6).
  exists c1, c2, c3, c4, c5, c'. repeat split; assumption.
Qed.

Lemma group_match_of (c : cursor) (n : nat) :
  1 <= n <= 12 -> group (match_of 12 c) n = marks c n.
Proof.
  intros [L U].
  do 13 (destruct n as [|n]; [try lia; try reflexivity|]). lia.
Qed.

Lemma build_match_of {Repo : Type} (repo : Repo) (seg : str) (c : cursor) :
  build repo seg (match_of 12 c) =
  inr (Diff_init repo (marks c 1) (marks c 2) (marks c 10) (marks c 11)
         (or_ (marks c 6) (marks c 9))
         (or_ (or_ (marks c 7) (marks c 8)) (marks c 12))
         (truthy (marks c 8)) (truthy (marks c 9))
         (marks c 4) (marks c 5)
         (skipn (length (seen c)) seg)).
Proof. reflexivity. Qed.

(** The pattern matches a segment exactly when its mandatory clause
    does: the optional clauses never make it fail. *)
Lemma diff_header_total (seg : str) :
  diff_header seg <> None <-> path_clause_matches seg = true.
Proof.
  unfold diff_header, match_, path_clause_matches. split.
  - intros H.
    destruct (run diff_header_re (start_cursor seg) Some) as [e|] eqn:R;
      [|now elim H].
    change (run path_clause (start_cursor seg)
              (fun c => run optional_clauses c Some) = Some e) in R.
    apply run_sound in R. destruct R as (c1 & D1 & _).
    pose proof (run_complete path_clause _ c1 Some D1) as C.
    destruct (run path_clause (start_cursor seg) Some); [reflexivity|].
    elim C; [discriminate|reflexivity].
  - intros H.
    destruct (run path_clause (start_cursor seg) Some) as [e|] eqn:R;
      [|discriminate].
    apply run_sound in R. destruct R as (c1 & D1 & _).
    assert (run diff_header_re (start_cursor seg) Some <> None) as C.
    { change (run path_clause (start_cursor seg)
                (fun c => run optional_clauses c Some) <> None).
      apply (run_complete path_clause _ c1); [exact D1|].
      apply run_skippable; [reflexivity|discriminate]. }
    destruct (run diff_header_re (start_cursor seg) Some);
      [discriminate|congruence].
Qed.

Lemma moved_from_start (K seg : str) (c' : cursor) :
  moved K (start_cursor seg) c' ->
  seg = K ++ rest c' /\ length (seen c') = length K /\
  skipn (length (seen c')) seg = rest c'.
Proof.
  intros [E F]. simpl in E, F. rewrite app_nil_r in F.
  assert (length (seen c') = length K) as L by now rewrite F, length_rev.
  repeat split; [exact E|exact L|].
  rewrite L, E, skipn_app, skipn_all, Nat.sub_diag. reflexivity.
Qed.

Ltac frames n :=
  repeat match goal with
  | D : den ?r ?c ?c' |- context [marks ?c' n] =>
      rewrite (den_frame r n c c' D) by (compute; intuition discriminate)
  end.


(** Reads a group of the match object off the chain of positions. *)
Ltac read_group n :=
  unfold G.a_path, G.b_path, G.similarity_index, G.rename_from, G.rename_to,
    G.old_mode, G.new_mode, G.new_file_mode, G.deleted_file_mode,
    G.a_commit, G.b_commit, G.b_mode;
  rewrite group_match_of by lia;
  repeat first
    [ progress frames n
    | match goal with
      | E : @eq cursor ?c' ?c |- context [marks ?c' n] => rewrite E
      end
    | match goal with
      | K : marks ?c = _ |- context [marks ?c n] => rewrite K; cbn [Nat.eqb]
      end ];
  reflexivity.

(** A matched header is the path line followed by the texts of the
    optional clauses, each of them absent or of exactly its form. *)
Lemma header_decomposition (seg : str) (h : Match) :
  diff_header seg = Some h ->
  exists a b k1 k2 k3 k4 k5,
    seg = path_text a b ++ k1 ++ k2 ++ k3 ++ k4 ++ k5 ++ skipn (end_ h) seg /\
    end_ h = length (path_text a b ++ k1 ++ k2 ++ k3 ++ k4 ++ k5) /\
    run_of nonspace a /\ run_of nonspace b /\
    group h G.a_path = Some a /\ group h G.b_path = Some b /\
    rename_part h k1 /\ mode_part h k2 /\ new_file_part h k3 /\
    deleted_file_part h k4 /\ index_part h k5.
Proof.
  intros H.
  destruct (header_chain _ _ H) as
    (c1 & c2 & c3 & c4 & c5 & c6 & D1 & D2 & D3 & D4 & D5 & D6 & ->).
  destruct (path_clause_inv _ _ D1) as (a & b & Ra & Rb & M1 & K1).
  assert (exists k1, moved k1 c1 c2 /\ rename_part (match_of 12 c6) k1)
    as (k1 & M2 & P2).
  { pose proof D2 as D. destruct D as [D|E].
    - destruct (rename_clause_inv _ _ D)
        as (si & rf & rt & e & R1 & R2 & R3 & En & _ & M & K).
      exists (rename_text si rf rt e). split; [exact M|]. right.
      exists si, rf, rt, e. apply ends_stop in En.
      repeat split; try assumption; try apply R1; try apply R2; try apply R3.
      + read_group 3. + read_group 4. + read_group 5.
    - exists []. split; [rewrite E; apply moved_refl|]. left.
      repeat split.
      + read_group 3. + read_group 4. + read_group 5. }
  assert (exists k2, moved k2 c2 c3 /\ mode_part (match_of 12 c6) k2)
    as (k2 & M3 & P3).
  { pose proof D3 as D. destruct D as [D|E].
    - destruct (mode_clause_inv _ _ D)
        as (om & nm & e & R1 & R2 & En & _ & M & K).
      exists (mode_text om nm e). split; [exact M|]. right.
      exists om, nm, e. apply ends_stop in En.
      repeat split; try assumption; try apply R1; try apply R2.
      + read_group 6. + read_group 7.
    - exists []. split; [rewrite E; apply moved_refl|]. left.
      repeat split.
      + read_group 6. + read_group 7. }
  assert (exists k3, moved k3 c3 c4 /\ new_file_part (match_of 12 c6) k3)
    as (k3 & M4 & P4).
  { pose proof D4 as D. destruct D as [D|E].
    - destruct (new_file_clause_inv _ _ D) as (v & e & R1 & En & _ & M & K).
      exists (new_file_text v e). split; [exact M|]. right.
      exists v, e. apply ends_stop in En.
      repeat split; try assumption; try apply R1.
      read_group 8.
    - exists []. split; [rewrite E; apply moved_refl|]. left.
      repeat split. read_group 8. }
  assert (exists k4, moved k4 c4 c5 /\ deleted_file_part (match_of 12 c6) k4)
    as (k4 & M5 & P5).
  { pose proof D5 as D. destruct D as [D|E].
    - destruct (deleted_file_clause_inv _ _ D)
        as (v & e & R1 & En & _ & M & K).
      exists (deleted_file_text v e). split; [exact M|]. right.
      exists v, e. apply ends_stop in En.
      repeat split; try assumption; try apply R1.
      read_group 9.
    - exists []. split; [rewrite E; apply moved_refl|]. left.
      repeat split. read_group 9. }
  assert (exists k5, moved k5 c5 c6 /\ index_part (match_of 12 c6) k5)
    as (k5 & M6 & P6).
  { pose proof D6 as D. destruct D as [D|E].
    - destruct (index_clause_inv _ _ D)
        as (ac & bc & sp & bm & e & R1 & R2 & Hsp & En & _ & M & Hbm).
      exists (index_text ac bc sp bm e). split; [exact M|]. right.
      exists ac, bc, sp, bm, e. apply ends_stop in En.
      destruct Hbm as [[-> K]|[R3 K]].
      + repeat split; try assumption; try apply R1; try apply R2.
        * read_group 10. * read_group 11.
        * left. split; [reflexivity|]. read_group 12.
      + repeat split; try assumption; try apply R1; try apply R2.
        * read_group 10. * read_group 11.
        * right. split; [exact R3|]. read_group 12.
    - exists []. split; [rewrite E; apply moved_refl|]. left.
      repeat split.
      + read_group 10. + read_group 11. + read_group 12. }
  exists a, b, k1, k2, k3, k4, k5.
  assert (moved (path_text a b ++ k1 ++ k2 ++ k3 ++ k4 ++ k5)
                (start_cursor seg) c6) as M by moved_chain.
  apply moved_from_start in M. destruct M as (E & L & Sk).
  cbn [end_ match_of].
  repeat split; try assumption; try apply Ra; try apply Rb.
  - rewrite Sk. rewrite <- !app_assoc in E. exact E.
  - read_group 1.
  - read_group 2.
Qed.


(** A match object always has the twelve groups the loop unpacks. *)
Lemma diff_header_match_of (seg : str) (h : Match) :
  diff_header seg = Some h -> exists c, h = match_of 12 c.
Proof.
  intros H. destruct (header_chain _ _ H)
    as (c1 & c2 & c3 & c4 & c5 & c6 & _ & _ & _ & _ & _ & _ & E).
  now exists c6.
Qed.

Lemma build_total {Repo : Type} (repo : Repo) (seg : str) (h : Match) :
  diff_header seg = Some h -> exists d, build repo seg h = inr d.
Proof.
  intros H. destruct (diff_header_match_of _ _ H) as (c & ->).
  rewrite build_match_of. eauto.
Qed.

(** The fields of a record, read off the match object. *)
Lemma build_fields {Repo : Type} (repo : Repo) (seg : str) (h : Match)
    (d : Diff Repo) :
  diff_header seg = Some h -> build repo seg h = inr d ->
  a_path d = group h G.a_path /\ b_path d = group h G.b_path /\
  a_commit d = group h G.a_commit /\ b_commit d = group h G.b_commit /\
  a_mode d = or_ (group h G.old_mode) (group h G.deleted_file_mode) /\
  b_mode d = or_ (or_ (group h G.new_mode) (group h G.new_file_mode))
                 (group h G.b_mode) /\
  new_file d = truthy (group h G.new_file_mode) /\
  deleted_file d = truthy (group h G.deleted_file_mode) /\
  rename_from d = group h G.rename_from /\
  rename_to d = group h G.rename_to /\
  renamed d = ne (rename_from d) (rename_to d) /\
  diff d = skipn (end_ h) seg.
Proof.
  intros H B. destruct (diff_header_match_of _ _ H) as (c & ->).
  rewrite build_match_of in B. inversion B; subst d; clear B.
  repeat split.
Qed.

Lemma record_of_inr {Repo : Type} (repo : Repo) (seg : str) (d : Diff Repo) :
  record_of repo seg = inr d ->
  exists h, diff_header seg = Some h /\ build repo seg h = inr d.
Proof.
  unfold record_of. destruct (diff_header seg) as [h|]; [|discriminate].
  intros B. now exists h.
Qed.

Lemma record_of_ok {Repo : Type} (repo : Repo) (seg : str) :
  path_clause_matches seg = true -> exists d, record_of repo seg = inr d.
Proof.
  intros P. apply diff_header_total in P. unfold record_of.
  destruct (diff_header seg) as [h|] eqn:H; [|congruence].
  now apply build_total.
Qed.

Lemma record_of_error {Repo : Type} (repo : Repo) (seg : str) (e : exn) :
  record_of repo seg = inl e ->
  e = AttributeError /\ path_clause_matches seg = false.
Proof.
  unfold record_of. destruct (diff_header seg) as [h|] eqn:H.
  - destruct (build_total repo seg h H) as (d & B). rewrite B. discriminate.
  - intros E. inversion E. split; [reflexivity|].
    destruct (path_clause_matches seg) eqn:P; [|reflexivity].
    apply diff_header_total in P. congruence.
Qed.

(** ** The loop *)

Lemma segment_loop_step {Repo : Type} (repo : Repo) (seg : str)
    (segs : list str) (acc : list (Diff Repo)) :
  segment_loop repo (seg :: segs) acc =
  match record_of repo seg with
  | inl e => inl e
  | inr d => segment_loop repo segs (acc ++ [d])
  end.
Proof.
  cbn [segment_loop]. unfold record_of.
  destruct (diff_header seg); reflexivity.
Qed.

Lemma segment_loop_inr {Repo : Type} (repo : Repo) (segs : list str) :
  forall acc ds,
    segment_loop repo segs acc = inr ds ->
    exists new, ds = acc ++ new /\
      Forall2 (fun seg d => record_of repo seg = inr d) segs new.
Proof.
  induction segs as [|seg segs IH]; intros acc ds H.
  - inversion H. exists []. now rewrite app_nil_r.
  - rewrite segment_loop_step in H.
    destruct (record_of repo seg) as [e|d] eqn:R; [discriminate|].
    destruct (IH _ _ H) as (new & -> & F).
    exists (d :: new). split; [now rewrite <- app_assoc|].
    now constructor.
Qed.

Lemma segment_loop_ok {Repo : Type} (repo : Repo) (segs : list str) :
  forall acc,
    Forall (fun seg => path_clause_matches seg = true) segs ->
    exists new, segment_loop repo segs acc = inr (acc ++ new).
Proof.
  induction segs as [|seg segs IH]; intros acc F.
  - exists []. now rewrite app_nil_r.
  - inversion F as [|? ? P F']; subst.
    rewrite segment_loop_step.
    destruct (record_of_ok repo seg P) as (d & ->).
    destruct (IH (acc ++ [d]) F') as (new & ->).
    exists (d :: new). now rewrite <- app_assoc.
Qed.

Lemma segment_loop_inl {Repo : Type} (repo : Repo) (segs : list str) :
  forall acc e,
    segment_loop repo segs acc = inl e ->
    e = AttributeError /\
    Exists (fun seg => path_clause_matches seg = false) segs.
Proof.
  induction segs as [|seg segs IH]; intros acc e H; [discriminate|].
  rewrite segment_loop_step in H.
  destruct (record_of repo seg) as [e'|d] eqn:R.
  - inversion H; subst e'. apply record_of_error in R.
    destruct R as [-> P]. split; [reflexivity|now left].
  - destruct (IH _ _ H) as [-> Ex]. split; [reflexivity|now right].
Qed.

Lemma segment_loop_fails {Repo : Type} (repo : Repo) (segs : list str) :
  forall acc,
    Exists (fun seg => path_clause_matches seg = false) segs ->
    segment_loop repo segs acc = inl AttributeError.
Proof.
  intros acc Ex.
  destruct (segment_loop repo segs acc) as [e|ds] eqn:H.
  - apply segment_loop_inl in H. now destruct H as [-> _].
  - apply segment_loop_inr in H. destruct H as (new & _ & F).
    exfalso. clear acc ds. induction F as [|seg d segs new R F IH].
    + inversion Ex.
    + inversion Ex as [? ? P|? ? Ex']; subst.
      * apply record_of_inr in R. destruct R as (h & H & _).
        assert (diff_header seg <> None) as N by congruence.
        apply diff_header_total in N. congruence.
      * now apply IH.
Qed.

Lemma parse_records {Repo : Type} (repo : Repo) (text : str)
    (ds : list (Diff Repo)) :
  parse repo text = inr ds ->
  Forall2 (fun seg d => record_of repo seg = inr d) (segments text) ds.
Proof.
  unfold parse. intros H. apply segment_loop_inr in H.
  now destruct H as (new & -> & F).
Qed.

(** ** The segments of a text *)

Lemma delim_first_unique : ~ In nl (txt "diff --git").
Proof. compute. intuition discriminate. Qed.

Lemma delim_not_nil : delim <> [].
Proof. discriminate. Qed.

Lemma segments_length (text : str) :
  length (segments text) = occurrences delim (nl :: text).
Proof.
  unfold segments.
  pose proof (split_length nl (txt "diff --git") (nl :: text)
                delim_first_unique) as L.
  fold delim in L.
  destruct (split delim (nl :: text)); simpl in *; lia.
Qed.

Lemma segments_join (text : str) :
  exists pre, nl :: text = join delim (pre :: segments text).
Proof.
  unfold segments.
  pose proof (join_split delim (nl :: text) delim_not_nil) as J.
  destruct (split delim (nl :: text)) as [|p ps] eqn:E.
  - now apply split_not_nil in E.
  - exists p. cbn [tl]. now rewrite J.
Qed.

Lemma segments_clean (text : str) :
  Forall (fun seg => ~ occurs delim seg) (segments text).
Proof.
  unfold segments.
  pose proof (split_pieces_clean delim (nl :: text) delim_not_nil) as C.
  destruct (split delim (nl :: text)); [constructor|].
  now inversion C.
Qed.

End HeaderFacts.

(** ** Values of the groups and of the record fields *)

Import PyStr PyStrFacts Re ReFacts HeaderFacts.

Lemma group_nonempty (seg : str) (h : Match) (n : nat) (v : str) :
  diff_header seg = Some h -> group h n = Some v -> v <> [].
Proof.
  unfold diff_header, match_. intros H E.
  destruct (run diff_header_re (start_cursor seg) Some) as [e|] eqn:R;
    [|discriminate].
  inversion H; subst h; clear H.
  apply run_sound in R. destruct R as (c' & D & Ec).
  inversion Ec; subst e; clear Ec.
  assert (forall i w, marks c' i = Some w -> w <> []) as N.
  { apply (den_marks_nonempty diff_header_re (start_cursor seg) c');
      [reflexivity|exact D|discriminate]. }
  unfold group, match_of, groups in E.
  destruct (nth_in_or_default (n - 1) (map (marks c') (seq 1 12)) None)
    as [I|I].
  - rewrite E in I. apply in_map_iff in I. destruct I as (i & Hi & _).
    now apply (N i).
  - congruence.
Qed.

Lemma or_present (seg : str) (h : Match) (n : nat) (b : option str) :
  diff_header seg = Some h ->
  or_ (group h n) b =
  match group h n with Some v => Some v | None => b end.
Proof.
  intros H. unfold or_, truthy.
  destruct (group h n) as [[|x v]|] eqn:E; try reflexivity.
  now apply (group_nonempty _ _ _ _ H) in E.
Qed.

Lemma truthy_present (seg : str) (h : Match) (n : nat) :
  diff_header seg = Some h ->
  truthy (group h n) = true <-> group h n <> None.
Proof.
  intros H. unfold truthy.
  destruct (group h n) as [[|x v]|] eqn:E.
  - now apply (group_nonempty _ _ _ _ H) in E.
  - split; [discriminate|reflexivity].
  - split; [discriminate|congruence].
Qed.

Lemma ne_spec (a b : option str) : ne a b = true <-> a <> b.
Proof.
  unfold ne, opt_str_eqb.
  destruct a as [x|], b as [y|]; simpl;
    try (split; [discriminate|reflexivity]);
    try (split; [discriminate|congruence]).
  destruct (list_eq_dec ascii_dec x y) as [->|N]; simpl.
  - split; [discriminate|congruence].
  - split; [congruence|reflexivity].
Qed.

Lemma Forall2_right {A B : Type} (R : A -> B -> Prop) (P : B -> Prop)
    (l : list A) (l' : list B) :
  Forall2 R l l' -> (forall x y, R x y -> P y) -> Forall P l'.
Proof. induction 1; intros I; constructor; eauto. Qed.

Lemma Forall2_imp {A B : Type} (R S : A -> B -> Prop)
    (l : list A) (l' : list B) :
  Forall2 R l l' -> (forall x y, R x y -> S x y) -> Forall2 S l l'.
Proof. induction 1; intros I; constructor; eauto. Qed.


(** ** Both flags *)

Lemma den_start (r : regex) (seg : str) (c : cursor) :
  den r (start_cursor seg) c -> seg = rev (seen c) ++ rest c.
Proof.
  intros D. destruct (den_consumes _ _ _ D) as (w & E & F).
  simpl in E, F. now rewrite F, app_nil_r, rev_involutive.
Qed.

Lemma at_eol_false (x : ascii) (s : str) (c : cursor) :
  rest c = x :: s -> x <> nl -> at_eol c = false.
Proof.
  unfold at_eol. intros -> N. destruct (Ascii.eqb x nl) eqn:E; [|reflexivity].
  apply Ascii.eqb_eq in E. congruence.
Qed.

(** When the new-file clause and the deleted-file clause both match,
    the segment holds the two lines one behind the other. *)
Lemma both_clauses_adjacent (seg : str) (h : Match) :
  diff_header seg = Some h ->
  group h G.new_file_mode <> None ->
  group h G.deleted_file_mode <> None ->
  exists before v w after,
    seg = (before ++ [nl]) ++ new_file_text v [nl] ++
          deleted_file_text w [] ++ after /\
    run_of dot v /\ run_of dot w /\
    group h G.new_file_mode = Some v /\
    group h G.deleted_file_mode = Some w /\
    (after = [] \/ exists t, after = nl :: t).
Proof.
  intros H N8 N9.
  destruct (header_chain _ _ H) as
    (c1 & c2 & c3 & c4 & c5 & c6 & D1 & D2 & D3 & D4 & D5 & D6 & ->).
  destruct (path_clause_inv _ _ D1) as (a & b & Ra & Rb & M1 & K1).
  pose proof D4 as D4'. destruct D4' as [D4'|E4];
    [|elim N8; read_group 8].
  pose proof D5 as D5'. destruct D5' as [D5'|E5];
    [|elim N9; read_group 9].
  destruct (new_file_clause_inv _ _ D4') as (v & e & Rv & En & B3 & M4 & K4).
  destruct (deleted_file_clause_inv _ _ D5')
    as (w & e' & Rw & En' & B4 & M5 & K5).
  assert (e = [nl]) as ->.
  { destruct En as [->|[_ A]]; [reflexivity|].
    destruct M5 as [E5 _]. unfold deleted_file_text in E5.
    rewrite (at_eol_false "d" _ c4 E5) in A; [discriminate|discriminate]. }
  assert (den (path_clause >> Opt rename_clause >> Opt mode_clause)
              (start_cursor seg) c3) as D13.
  { exists c1. split; [exact D1|]. exists c2. now split. }
  apply den_start in D13.
  assert (exists t, seen c3 = nl :: t) as (t & S3).
  { destruct (den_consumes _ _ _ D2) as (w2 & _ & F2).
    destruct (den_consumes _ _ _ D3) as (w3 & _ & F3).
    destruct M1 as [_ F1]. unfold at_bol in B3.
    destruct (seen c3) as [|x t] eqn:S3.
    - exfalso. rewrite F2, F1 in F3. unfold path_text in F3.
      rewrite !app_assoc, rev_unit in F3.
      destruct (rev w3); [destruct (rev w2)|]; discriminate.
    - apply Ascii.eqb_eq in B3. subst x. now exists t. }
  exists (rev t), v, w, (e' ++ rest c5).
  destruct M4 as [E4 _]. destruct M5 as [E5 _].
  split; [|split; [|split; [|split; [|split]]]]; try assumption.
  - rewrite D13, S3, E4, E5. cbn [rev].
    unfold deleted_file_text. now rewrite <- !app_assoc.
  - read_group 8.
  - read_group 9.
  - destruct En' as [->|[-> A]]; [right; now exists (rest c5)|].
    unfold at_eol in A. cbn [app].
    destruct (rest c5) as [|x r]; [now left|right].
    apply Ascii.eqb_eq in A. subst x. now exists r.
Qed.

(** ** Where a header ends *)



(** ** The first line of a segment *)

Lemma nonspace_dot (x : ascii) : nonspace x = true -> dot x = true.
Proof.
  unfold dot. destruct (Ascii.eqb x nl) eqn:E; [|reflexivity].
  apply Ascii.eqb_eq in E. subst x. discriminate.
Qed.

Lemma run_nonspace_dot (w : str) :
  forallb nonspace w = true -> forallb dot w = true.
Proof.
  rewrite !forallb_forall. intros F x I. apply nonspace_dot. now apply F.
Qed.

Lemma first_line_app_nl (u t : str) :
  forallb dot u = true -> first_line (u ++ nl :: t) = u.
Proof.
  induction u as [|x u IH]; simpl; intros F; [reflexivity|].
  apply andb_prop in F. destruct F as [Fx Fu].
  rewrite Fx. f_equal. now apply IH.
Qed.

Lemma first_line_prefix (p r : str) :
  (r = [] \/ exists r', r = nl :: r') -> first_line (p ++ r) = first_line p.
Proof.
  intros Hr. induction p as [|x p IH]; simpl.
  - destruct Hr as [->|(r' & ->)]; reflexivity.
  - destruct (dot x); [now rewrite IH|reflexivity].
Qed.

Lemma spaces_app (u v : str) : spaces (u ++ v) = spaces u + spaces v.
Proof. unfold spaces. now rewrite filter_app, length_app. Qed.

Lemma spaces_nonspace (w : str) : forallb nonspace w = true -> spaces w = 0.
Proof.
  unfold spaces, nonspace. induction w as [|x w IH]; simpl; [reflexivity|].
  intros F. apply andb_prop in F. destruct F as [Fx Fw].
  destruct (is_space x); [discriminate|]. now apply IH.
Qed.

Lemma spaces_exists (w : str) : existsb is_space w = true -> 0 < spaces w.
Proof.
  unfold spaces. induction w as [|x w IH]; simpl; [discriminate|].
  destruct (is_space x); simpl; [lia|]. exact IH.
Qed.

Lemma path_text_line (a b t : str) :
  path_text a b ++ t = (txt " a/" ++ a ++ txt " b/" ++ b) ++ nl :: t.
Proof. unfold path_text. now rewrite <- !app_assoc. Qed.

Lemma path_line_dot (a b : str) :
  forallb dot (a ++ b) = true ->
  forallb dot (txt " a/" ++ a ++ txt " b/" ++ b) = true.
Proof.
  rewrite !forallb_app. intros F. apply andb_prop in F. destruct F as [-> ->].
  reflexivity.
Qed.

Lemma path_line_spaces (a b : str) :
  spaces (txt " a/" ++ a ++ txt " b/" ++ b) = 2 + spaces (a ++ b).
Proof.
  rewrite !spaces_app.
  change (spaces (txt " a/")) with 1. change (spaces (txt " b/")) with 1.
  lia.
Qed.

(** A segment the pattern matches starts with a path line whose paths
    hold no whitespace. *)
Lemma header_path_line (seg : str) (h : Match) :
  diff_header seg = Some h ->
  exists a b t, run_of nonspace a /\ run_of nonspace b /\
                seg = path_text a b ++ t.
Proof.
  intros H. destruct (header_decomposition seg h H)
    as (a & b & k1 & k2 & k3 & k4 & k5 & E & _ & Ra & Rb & _).
  exists a, b, (k1 ++ k2 ++ k3 ++ k4 ++ k5 ++ skipn (end_ h) seg).
  now repeat split; try apply Ra; try apply Rb.
Qed.

Lemma segments_behind_token (s : str) :
  segments (txt "diff --git" ++ s) = split delim s.
Proof.
  unfold segments.
  change (nl :: txt "diff --git" ++ s) with (delim ++ s).
  now rewrite split_at_sep by apply delim_not_nil.
Qed.

Lemma split_head_rest (sep s p : str) (ps : list str) :
  sep <> [] -> split sep s = p :: ps ->
  exists r, s = p ++ r /\ (r = [] \/ exists r', r = sep ++ r').
Proof.
  intros Hsep E. pose proof (join_split sep s Hsep) as J. rewrite E in J.
  destruct ps as [|q ps].
  - exists []. simpl in J. rewrite app_nil_r. auto.
  - rewrite join_cons in J by discriminate.
    exists (sep ++ join sep (q :: ps)). split; [now symmetry|]. right. eauto.
Qed.

Lemma split_line_prefix (L r : str) :
  forallb dot L = true ->
  (r = [] \/ exists r', r = delim ++ r') ->
  exists ps, split delim (L ++ r) = L :: ps.
Proof.
  intros F Hr. induction L as [|x L IH].
  - destruct Hr as [->|(r' & ->)].
    + now exists [].
    + exists (split delim r'). cbn [app].
      now rewrite split_at_sep by apply delim_not_nil.
  - simpl in F. apply andb_prop in F. destruct F as [Fx FL].
    destruct (IH FL) as (ps & E). exists ps.
    change ((x :: L) ++ r) with (x :: (L ++ r)).
    rewrite split_step, E; [reflexivity|].
    apply starts_with_other. intros ->. discriminate.
Qed.

(** The pattern refuses a first segment whose path line holds
    whitespace inside a path or has no newline behind it. *)
Lemma bad_path_line_refused (s p : str) (ps : list str) :
  bad_path_line s -> split delim s = p :: ps -> diff_header p = None.
Proof.
  intros B E.
  destruct (diff_header p) as [h|] eqn:H; [exfalso|reflexivity].
  destruct (header_path_line p h H) as (a' & b' & t' & Ra & Rb & Ep).
  assert (forallb dot (a' ++ b') = true) as D'.
  { rewrite forallb_app.
    now rewrite (run_nonspace_dot a' (proj2 Ra)),
                (run_nonspace_dot b' (proj2 Rb)). }
  destruct B as [a b t D S|a b r D Hr].
  - destruct (split_head_rest delim _ p ps delim_not_nil E) as (r & Es & Hr).
    assert (r = [] \/ exists r', r = nl :: r') as Hr'.
    { destruct Hr as [->|(r' & ->)]; [now left|right].
      now exists (txt "diff --git" ++ r'). }
    assert (first_line p = txt " a/" ++ a' ++ txt " b/" ++ b') as L'.
    { rewrite Ep, path_text_line. apply first_line_app_nl.
      now apply path_line_dot. }
    assert (first_line (path_text a b ++ t) = first_line p) as L
      by (rewrite Es; now apply first_line_prefix).
    rewrite path_text_line, first_line_app_nl in L by now apply path_line_dot.
    rewrite L' in L. apply (f_equal spaces) in L.
    rewrite !path_line_spaces, (spaces_app a' b') in L.
    rewrite (spaces_nonspace a' (proj2 Ra)),
            (spaces_nonspace b' (proj2 Rb)) in L.
    apply spaces_exists in S. lia.
  - apply path_line_dot in D.
    destruct (split_line_prefix _ r D Hr) as (ps' & E').
    assert (p = txt " a/" ++ a ++ txt " b/" ++ b) as Ep' by congruence.
    rewrite <- Ep', Ep, path_text_line, forallb_app in D.
    apply andb_prop in D. destruct D as [_ D]. discriminate.
Qed.

Lemma path_clause_den (a b t : str) :
  run_of nonspace a -> run_of nonspace b ->
  exists c', den path_clause (start_cursor (path_text a b ++ t)) c'.
Proof.
  intros [Na Fa] [Nb Fb]. unfold path_clause, path_text, start_cursor.
  rewrite <- !app_assoc. cbn [den rest seen marks].
  eexists. eexists. split.
  { eexists. split; reflexivity. }
  eexists. split.
  { eexists. split; [|reflexivity].
    exists a. eexists. cbn [rest seen marks]. repeat split; eassumption || reflexivity. }
  eexists. split.
  { eexists. cbn [rest seen marks set_mark]. split; reflexivity. }
  eexists. split.
  { eexists. split; [|reflexivity].
    exists b. eexists. cbn [rest seen marks]. repeat split; eassumption || reflexivity. }
  eexists. cbn [rest seen marks set_mark]. split; reflexivity.
Qed.

(** The mandatory clause matches the segments that start with a path
    line whose two paths are non-empty and free of whitespace. *)
Lemma path_clause_matches_iff (seg : str) :
  path_clause_matches seg = true <->
  exists a b t, run_of nonspace a /\ run_of nonspace b /\
                seg = path_text a b ++ t.
Proof.
  split.
  - intros P. apply diff_header_total in P.
    destruct (diff_header seg) as [h|] eqn:H; [|congruence].
    now apply (header_path_line seg h).
  - intros (a & b & t & Ra & Rb & ->).
    destruct (path_clause_den a b t Ra Rb) as (c' & D).
    unfold path_clause_matches.
    pose proof (run_complete path_clause _ c' Some D) as C.
    destruct (run path_clause (start_cursor (path_text a b ++ t)) Some);
      [reflexivity|].
    elim C; [discriminate|reflexivity].
Qed.

(** ** The scenarios of the specification, evaluated *)

(** Scenario A: a new empty file. *)
Example scenario_new_file :
  map (fun d => (a_path d, b_path d, new_file d, deleted_file d,
                 a_commit d, b_commit d))
      (records_of sample_new_file)
  = [(Some (txt "x.txt"), Some (txt "x.txt"), true, false,
      Some (txt "0000000"), Some (txt "e69de29"))].
Proof. vm_compute. reflexivity. Qed.

(** Scenarios B and C: a rename, and two segments one behind the other;
    the hunk text of each record is that of its own segment. *)
Example scenario_two_files :
  map (fun d => (rename_from d, rename_to d, renamed d, diff d))
      (records_of sample_two_files)
  = [(Some (txt "old.txt"), Some (txt "new.txt"), true, []);
     (None, None, false,
      ln "--- a/f" ++ ln "+++ b/f" ++ ln "@@ -1 +1 @@" ++ ln "-a" ++ ln "+b")].
Proof. vm_compute. reflexivity. Qed.

(* ================================================================== *)
(** * The claims *)

(** What the loop does deliver: when the mandatory path clause matches on
    every segment of the text, the parser returns one record per segment,
    in the order of the segments: as many records as the token
    [\ndiff --git] occurs in the text behind the newline put in front.
    The segments are the pieces between the tokens; none of them holds
    the token, and the hunk text of a record is the tail of its own
    segment. *)
Theorem parse_valid_diff {Repo : Type} (repo : Repo) (text : str) :
  Forall (fun seg => path_clause_matches seg = true) (segments text) ->
  exists ds,
    parse repo text = inr ds /\
    length ds = occurrences delim (nl :: text) /\
    Forall2
      (fun seg d => record_of repo seg = inr d /\
                    exists hdr, seg = hdr ++ diff d)
      (segments text) ds /\
    (exists pre, nl :: text = join delim (pre :: segments text)) /\
    Forall (fun seg => ~ occurs delim seg) (segments text).
Proof.
  intros V. unfold parse.
  destruct (segment_loop_ok repo (segments text) [] V) as (ds & H).
  exists ds. cbn [app] in H. split; [exact H|].
  pose proof (parse_records repo text ds H) as F.
  split; [|split; [|split]].
  - rewrite <- segments_length. symmetry. apply (Forall2_length F).
  - apply (Forall2_imp _ _ _ _ F). clear. intros seg d R.
    split; [exact R|].
    apply record_of_inr in R. destruct R as (h & H & B).
    destruct (build_fields repo seg h d H B)
      as (_ & _ & _ & _ & _ & _ & _ & _ & _ & _ & _ & E).
    exists (firstn (end_ h) seg). rewrite E.
    symmetry. apply firstn_skipn.
  - apply segments_join.
  - apply segments_clean.
Qed.

Lemma parse_valid_diff_witness :
  Forall (fun seg => path_clause_matches seg = true)
         (segments sample_two_files) /\
  exists ds,
    parse tt sample_two_files = inr ds /\
    length ds = occurrences delim (nl :: sample_two_files) /\
    Forall2
      (fun seg d => record_of tt seg = inr d /\
                    exists hdr, seg = hdr ++ diff d)
      (segments sample_two_files) ds /\
    (exists pre,
       nl :: sample_two_files = join delim (pre :: segments sample_two_files)) /\
    Forall (fun seg => ~ occurs delim seg) (segments sample_two_files).
Proof.
  split; [vm_compute; repeat constructor|].
  apply (parse_valid_diff tt sample_two_files).
  vm_compute; repeat constructor.
Defined.

(** C1. A text of N segments is to give N records, one per segment and
    in their order; two segments written one behind the other are to give
    exactly two. The code does not: a segment that consists of its path
    line alone is parsed into one record when it stands last, but raises
    [AttributeError] as soon as another segment follows it. The split
    takes the newline that ends the path line as part of the token
    [\ndiff --git], and the path clause insists on that newline, where
    each of the five optional clauses ends in [(?:\n|$)] and so accepts
    the end of the segment in its place. Two path lines one behind the
    other hold the token twice and each of them alone gives one record,
    yet together they raise; so does a path line in front of a segment
    with an [index] line, while the same two segments in the other order
    give the two records, each with the paths of its own segment. *)
Lemma concatenated_bare_headers_fail :
  occurrences delim (nl :: sample_bare_headers) = 2 /\
  length (records_of (ln "diff --git a/x b/y")) = 1 /\
  length (records_of (ln "diff --git a/z b/w")) = 1 /\
  parse tt sample_bare_headers = inl AttributeError /\
  segments sample_bare_headers = [txt " a/x b/y"; ln " a/z b/w"] /\
  path_clause_matches (txt " a/x b/y") = false /\
  path_clause_matches (ln " a/x b/y") = true /\
  parse tt (ln "diff --git a/x b/y" ++
            ln "diff --git a/z b/w" ++ ln "index a1b2c3..d4e5f6")
  = inl AttributeError /\
  map (fun d => (a_path d, b_path d, b_commit d, diff d))
      (records_of (ln "diff --git a/z b/w" ++ ln "index a1b2c3..d4e5f6" ++
                   ln "diff --git a/x b/y"))
  = [(Some (txt "z"), Some (txt "w"), Some (txt "d4e5f6"), []);
     (Some (txt "x"), Some (txt "y"), None, [])].
Proof. vm_compute. repeat split. Qed.

(** C2. For every parsed segment, the old mode of the record is the
    [old mode] capture if there is one and the [deleted file mode] capture
    otherwise; the new mode is the [new mode] capture if there is one,
    else the [new file mode] capture if there is one, else the mode
    behind the blob ids of the [index] line. *)
Theorem mode_resolution {Repo : Type} (repo : Repo) (text : str)
    (ds : list (Diff Repo)) :
  parse repo text = inr ds ->
  Forall2
    (fun seg d =>
       exists h, diff_header seg = Some h /\
         a_mode d =
           match group h G.old_mode with
           | Some v => Some v
           | None => group h G.deleted_file_mode
           end /\
         b_mode d =
           match group h G.new_mode with
           | Some v => Some v
           | None =>
               match group h G.new_file_mode with
               | Some v => Some v
               | None => group h G.b_mode
               end
           end)
    (segments text) ds.
Proof.
  intros H. apply parse_records in H.
  apply (Forall2_imp _ _ _ _ H). clear. intros seg d R.
  apply record_of_inr in R. destruct R as (h & H & B).
  exists h. split; [exact H|].
  destruct (build_fields repo seg h d H B)
    as (_ & _ & _ & _ & Ea & Eb & _).
  rewrite Ea, Eb. rewrite (or_present seg h G.old_mode _ H).
  split; [reflexivity|].
  unfold or_ at 1.
  rewrite (or_present seg h G.new_mode _ H).
  destruct (group h G.new_mode) as [v|] eqn:E1.
  - assert (truthy (Some v) = true) as T.
    { rewrite <- E1. apply (truthy_present seg h _ H). congruence. }
    now rewrite T.
  - destruct (group h G.new_file_mode) as [v|] eqn:E2.
    + assert (truthy (Some v) = true) as T.
      { rewrite <- E2. apply (truthy_present seg h _ H). congruence. }
      now rewrite T.
    + reflexivity.
Qed.

(** The segment [index a1b2c3..d4e5f6 100644] of the specification: its
    record has new mode [100644]. *)
Lemma mode_resolution_witness :
  parse tt sample_index_mode = inr sample_index_mode_records /\
  map b_mode sample_index_mode_records = [Some (txt "100644")] /\
  Forall2
    (fun seg d =>
       exists h, diff_header seg = Some h /\
         a_mode d =
           match group h G.old_mode with
           | Some v => Some v
           | None => group h G.deleted_file_mode
           end /\
         b_mode d =
           match group h G.new_mode with
           | Some v => Some v
           | None =>
               match group h G.new_file_mode with
               | Some v => Some v
               | None => group h G.b_mode
               end
           end)
    (segments sample_index_mode) sample_index_mode_records.
Proof.
  split; [vm_compute; reflexivity|].
  split; [vm_compute; reflexivity|].
  apply (mode_resolution tt sample_index_mode sample_index_mode_records).
  vm_compute; reflexivity.
Defined.

(** C3 (as amended). The two flags of a record are both true only when
    the header of its segment has a [new file mode] line with a
    [deleted file mode] line right behind it; each flag says that the
    clause of its name matched. *)
Theorem new_and_deleted_need_both_lines {Repo : Type} (repo : Repo)
    (text : str) (ds : list (Diff Repo)) :
  parse repo text = inr ds ->
  Forall2
    (fun seg d =>
       exists h, diff_header seg = Some h /\
         (new_file d = true <-> group h G.new_file_mode <> None) /\
         (deleted_file d = true <-> group h G.deleted_file_mode <> None) /\
         (new_file d = true -> deleted_file d = true ->
          exists before v w after,
            seg = (before ++ [nl]) ++ (txt "new file mode " ++ v ++ [nl]) ++
                  (txt "deleted file mode " ++ w) ++ after /\
            run_of dot v /\ run_of dot w /\
            (after = [] \/ exists t, after = nl :: t)))
    (segments text) ds.
Proof.
  intros H. apply parse_records in H.
  apply (Forall2_imp _ _ _ _ H). clear. intros seg d R.
  apply record_of_inr in R. destruct R as (h & H & B).
  exists h. split; [exact H|].
  destruct (build_fields repo seg h d H B)
    as (_ & _ & _ & _ & _ & _ & En & Ed & _).
  rewrite En, Ed.
  split; [apply (truthy_present seg h _ H)|].
  split; [apply (truthy_present seg h _ H)|].
  intros T8 T9.
  apply (truthy_present seg h _ H) in T8.
  apply (truthy_present seg h _ H) in T9.
  destruct (both_clauses_adjacent seg h H T8 T9)
    as (before & v & w & after & E & Rv & Rw & _ & _ & A).
  exists before, v, w, after.
  split; [|split; [exact Rv|split; [exact Rw|exact A]]].
  rewrite E. unfold new_file_text, deleted_file_text.
  now rewrite app_nil_r.
Qed.

Lemma new_and_deleted_need_both_lines_witness :
  parse tt sample_new_and_deleted = inr sample_new_and_deleted_records /\
  Forall2
    (fun seg d =>
       exists h, diff_header seg = Some h /\
         (new_file d = true <-> group h G.new_file_mode <> None) /\
         (deleted_file d = true <-> group h G.deleted_file_mode <> None) /\
         (new_file d = true -> deleted_file d = true ->
          exists before v w after,
            seg = (before ++ [nl]) ++ (txt "new file mode " ++ v ++ [nl]) ++
                  (txt "deleted file mode " ++ w) ++ after /\
            run_of dot v /\ run_of dot w /\
            (after = [] \/ exists t, after = nl :: t)))
    (segments sample_new_and_deleted) sample_new_and_deleted_records.
Proof.
  split; [vm_compute; reflexivity|].
  apply (new_and_deleted_need_both_lines tt sample_new_and_deleted
           sample_new_and_deleted_records).
  vm_compute; reflexivity.
Defined.

(** Against C3 as stated: a segment with a [new file mode] line and a
    [deleted file mode] line behind it yields a record with both flags
    true. *)
Lemma new_and_deleted_both_true :
  parse tt sample_new_and_deleted = inr sample_new_and_deleted_records /\
  map (fun d => (new_file d, deleted_file d)) sample_new_and_deleted_records
  = [(true, true)].
Proof. split; vm_compute; reflexivity. Qed.

(** C4. For every record the parser returns, [renamed] is true exactly
    when [rename_from] and [rename_to] differ; when both are absent it is
    false. *)
Theorem renamed_is_inequality {Repo : Type} (repo : Repo) (text : str)
    (ds : list (Diff Repo)) :
  parse repo text = inr ds ->
  Forall
    (fun d =>
       (renamed d = true <-> rename_from d <> rename_to d) /\
       renamed d = negb (opt_str_eqb (rename_from d) (rename_to d)) /\
       (rename_from d = None -> rename_to d = None -> renamed d = false))
    ds.
Proof.
  intros H. apply parse_records in H.
  apply (Forall2_right _ _ _ _ H). clear. intros seg d R.
  apply record_of_inr in R. destruct R as (h & H & B).
  destruct (build_fields repo seg h d H B)
    as (_ & _ & _ & _ & _ & _ & _ & _ & _ & _ & E & _).
  rewrite E. split; [apply ne_spec|]. split; [reflexivity|].
  now intros -> ->.
Qed.

Lemma renamed_is_inequality_witness :
  parse tt sample_two_files = inr sample_two_files_records /\
  Forall
    (fun d =>
       (renamed d = true <-> rename_from d <> rename_to d) /\
       renamed d = negb (opt_str_eqb (rename_from d) (rename_to d)) /\
       (rename_from d = None -> rename_to d = None -> renamed d = false))
    sample_two_files_records.
Proof.
  split; [vm_compute; reflexivity|].
  apply (renamed_is_inequality tt sample_two_files sample_two_files_records).
  vm_compute; reflexivity.
Defined.

(** C5. The parser raises exactly when the mandatory path clause fails
    on some segment: the call as a whole then ends in the exception the
    loop raises at that segment, [AttributeError], and no list is
    returned. It returns a list exactly when the path clause matches on
    every segment: no optional clause, present or missing, makes it
    raise. *)
Theorem parse_fails_iff_path_clause_fails {Repo : Type} (repo : Repo)
    (text : str) :
  (parse repo text = inl AttributeError <->
   Exists (fun seg => path_clause_matches seg = false) (segments text)) /\
  ((exists ds, parse repo text = inr ds) <->
   Forall (fun seg => path_clause_matches seg = true) (segments text)) /\
  parse repo text <> inl ValueError.
Proof.
  split; [|split].
  - split.
    + intros H. unfold parse in H. now apply segment_loop_inl in H.
    + intros Ex. now apply segment_loop_fails.
  - split.
    + intros (ds & H). apply parse_records in H.
      induction H as [|seg d segs ds' R F IH]; constructor.
      * apply record_of_inr in R. destruct R as (h & H & _).
        apply diff_header_total. congruence.
      * exact IH.
    + intros F. destruct (segment_loop_ok repo (segments text) [] F)
        as (ds & H).
      now exists ds.
  - intros H. unfold parse in H. apply segment_loop_inl in H.
    destruct H as [H _]. discriminate.
Qed.

(** C6. A text in which the token [\ndiff --git] does not occur once
    the newline is put in front has no segments, and the parser returns
    the empty list. *)
Theorem parse_no_segments {Repo : Type} (repo : Repo) (text : str) :
  occurrences delim (nl :: text) = 0 -> parse repo text = inr [].
Proof.
  intros H. unfold parse, segments.
  now rewrite (split_no_occurrence _ _ H).
Qed.

Lemma parse_no_segments_witness :
  occurrences delim (nl :: []) = 0 /\ parse tt [] = inr [].
Proof.
  split; [reflexivity|].
  apply (parse_no_segments tt []). reflexivity.
Defined.

(** C7. For every parsed segment the three fields of the rename clause
    go together: either none of [similarity_index], [rename_from] and
    [rename_to] is set, or the three lines stand right behind the path
    line, one behind the other, and the fields hold their values. *)
Theorem rename_all_or_none {Repo : Type} (repo : Repo) (text : str)
    (ds : list (Diff Repo)) :
  parse repo text = inr ds ->
  Forall2
    (fun seg d =>
       exists h, diff_header seg = Some h /\
         ((group h G.similarity_index = None /\
           rename_from d = None /\ rename_to d = None) \/
          (exists a b si rf rt e after,
             seg = path_text a b ++
                   (txt "similarity index " ++ si ++ ln "%" ++
                    txt "rename from " ++ rf ++ [nl] ++
                    txt "rename to " ++ rt ++ e) ++ after /\
             line_stop e /\
             run_of digit si /\ run_of nonspace rf /\ run_of nonspace rt /\
             group h G.similarity_index = Some si /\
             rename_from d = Some rf /\ rename_to d = Some rt)))
    (segments text) ds.
Proof.
  intros H. apply parse_records in H.
  apply (Forall2_imp _ _ _ _ H). clear. intros seg d R.
  apply record_of_inr in R. destruct R as (h & H & B).
  exists h. split; [exact H|].
  destruct (build_fields repo seg h d H B)
    as (_ & _ & _ & _ & _ & _ & _ & _ & Ef & Et & _).
  rewrite Ef, Et.
  destruct (header_decomposition seg h H)
    as (a & b & k1 & k2 & k3 & k4 & k5 & E & _ & _ & _ & _ & _ & P & _).
  destruct P as [(-> & N3 & N4 & N5)|
                 (si & rf & rt & e & -> & St & R1 & R2 & R3 & S3 & S4 & S5)].
  - left. now repeat split.
  - right.
    exists a, b, si, rf, rt, e, (k2 ++ k3 ++ k4 ++ k5 ++ skipn (end_ h) seg).
    split; [exact E|tauto].
Qed.

Lemma rename_all_or_none_witness :
  parse tt sample_two_files = inr sample_two_files_records /\
  Forall2
    (fun seg d =>
       exists h, diff_header seg = Some h /\
         ((group h G.similarity_index = None /\
           rename_from d = None /\ rename_to d = None) \/
          (exists a b si rf rt e after,
             seg = path_text a b ++
                   (txt "similarity index " ++ si ++ ln "%" ++
                    txt "rename from " ++ rf ++ [nl] ++
                    txt "rename to " ++ rt ++ e) ++ after /\
             line_stop e /\
             run_of digit si /\ run_of nonspace rf /\ run_of nonspace rt /\
             group h G.similarity_index = Some si /\
             rename_from d = Some rf /\ rename_to d = Some rt)))
    (segments sample_two_files) sample_two_files_records.
Proof.
  split; [vm_compute; reflexivity|].
  apply (rename_all_or_none tt sample_two_files sample_two_files_records).
  vm_compute; reflexivity.
Defined.

(** C8 (as amended). When the mandatory path clause matches, the segment
    yields a record, never an error, and its header is the path line
    followed by the texts of the optional clauses in the order of the
    pattern: each clause is either absent, with its groups unset and no
    text of its own, or a line of the form the pattern accepts, with its
    groups holding the fields of that line. Text that is not of that
    form at that place is left to the hunk text. The form fixes the
    keywords with their single blanks, the digits of the modes and of
    the similarity index, the hexadecimal blob ids and the order of the
    clauses; the mode behind [new file mode ], behind
    [deleted file mode ] and behind the blob ids is any run of
    characters up to the end of the line, blanks and tabs included. *)
Theorem optional_clause_absent_or_exact {Repo : Type} (repo : Repo)
    (seg : str) :
  path_clause_matches seg = true ->
  exists h d,
    diff_header seg = Some h /\ record_of repo seg = inr d /\
    exists a b k1 k2 k3 k4 k5,
      seg = path_text a b ++ k1 ++ k2 ++ k3 ++ k4 ++ k5 ++ diff d /\
      rename_part h k1 /\ mode_part h k2 /\ new_file_part h k3 /\
      deleted_file_part h k4 /\ index_part h k5.
Proof.
  intros P. destruct (record_of_ok repo seg P) as (d & R).
  pose proof R as R'. apply record_of_inr in R'. destruct R' as (h & H & B).
  exists h, d. split; [exact H|]. split; [exact R|].
  destruct (build_fields repo seg h d H B)
    as (_ & _ & _ & _ & _ & _ & _ & _ & _ & _ & _ & Ed).
  destruct (header_decomposition seg h H)
    as (a & b & k1 & k2 & k3 & k4 & k5 & E & _ & _ & _ & _ & _ &
        P1 & P2 & P3 & P4 & P5).
  exists a, b, k1, k2, k3, k4, k5. rewrite Ed.
  split; [exact E|tauto].
Qed.

Lemma optional_clause_absent_or_exact_witness :
  path_clause_matches sample_out_of_order = true /\
  exists h d,
    diff_header sample_out_of_order = Some h /\
    record_of tt sample_out_of_order = inr d /\
    exists a b k1 k2 k3 k4 k5,
      sample_out_of_order =
        path_text a b ++ k1 ++ k2 ++ k3 ++ k4 ++ k5 ++ diff d /\
      rename_part h k1 /\ mode_part h k2 /\ new_file_part h k3 /\
      deleted_file_part h k4 /\ index_part h k5.
Proof.
  split; [vm_compute; reflexivity|].
  apply (optional_clause_absent_or_exact tt sample_out_of_order).
  vm_compute; reflexivity.
Defined.

(** Lines that deviate from the pattern are not an error and set
    nothing: a clause out of order, a misspelt keyword, an [old mode]
    line without its [new mode] line. They stay in the hunk text. *)
Example deviating_clauses_are_absent :
  map (fun d => (new_file d, b_commit d, diff d))
      (records_of (txt "diff --git" ++ sample_out_of_order))
  = [(false, Some (txt "d4e5f6"), ln "new file mode 100644")] /\
  map (fun d => (new_file d, b_mode d, diff d))
      (records_of (ln "diff --git a/f b/f" ++ ln "new  file mode 100644"))
  = [(false, None, ln "new  file mode 100644")] /\
  map (fun d => (a_mode d, b_mode d, diff d))
      (records_of (ln "diff --git a/f b/f" ++ ln "old mode 100644" ++
                   ln "index a1b2c3..d4e5f6"))
  = [(None, None, ln "old mode 100644" ++ ln "index a1b2c3..d4e5f6")].
Proof. vm_compute. repeat split. Qed.

(** Against C8 as stated: a clause whose spacing deviates is not always
    left out. The mode of the [new file mode], [deleted file mode] and
    [index] lines is read by [.+], so a second blank behind
    [new file mode ], a tab or two blanks behind the blob ids, or a mode
    of blanks only are taken as the mode: the clause counts as present
    and sets its fields, the blanks being part of the mode. *)
Lemma spacing_deviation_sets_fields :
  map (fun d => (new_file d, b_mode d, diff d))
      (records_of (ln "diff --git a/f b/f" ++ ln "new file mode  100644"))
  = [(true, Some (txt " 100644"), [])] /\
  map (fun d => (a_commit d, b_commit d, b_mode d, diff d))
      (records_of (ln "diff --git a/f b/f" ++
                   txt "index a1b2c3..d4e5f6" ++ ["009"] ++ ln "100644"))
  = [(Some (txt "a1b2c3"), Some (txt "d4e5f6"),
      Some ("009" :: txt "100644"), [])] /\
  map (fun d => (a_commit d, b_commit d, b_mode d, diff d))
      (records_of (ln "diff --git a/f b/f" ++
                   ln "index a1b2c3..d4e5f6  100644"))
  = [(Some (txt "a1b2c3"), Some (txt "d4e5f6"),
      Some (txt " 100644"), [])] /\
  map (fun d => (deleted_file d, a_mode d, diff d))
      (records_of (ln "diff --git a/f b/f" ++ ln "deleted file mode   "))
  = [(true, Some (txt "  "), [])].
Proof. vm_compute. repeat split. Qed.



(** C10. The mandatory clause needs both paths free of whitespace and a
    newline behind the line, inside the segment: on a text whose first
    path line is of the form [ a/<path> b/<path>] with whitespace inside
    a path, or whose first segment ends behind the paths without a
    newline, the parser raises. *)
Theorem bad_path_line_raises {Repo : Type} (repo : Repo) (s : str) :
  bad_path_line s ->
  parse repo (txt "diff --git" ++ s) = inl AttributeError.
Proof.
  intros B. unfold parse. rewrite segments_behind_token.
  destruct (split delim s) as [|p ps] eqn:E;
    [now apply split_not_nil in E|].
  rewrite segment_loop_step. unfold record_of.
  now rewrite (bad_path_line_refused s p ps B E).
Qed.

(** The two cases on inputs of the specification's kind: the line
    [diff --git a/x b/y] without a newline, and a path with a space. *)
Lemma bad_path_line_raises_witness :
  (bad_path_line ((txt " a/" ++ txt "x" ++ txt " b/" ++ txt "y") ++ []) /\
   parse tt (txt "diff --git" ++
             (txt " a/" ++ txt "x" ++ txt " b/" ++ txt "y") ++ [])
   = inl AttributeError) /\
  (bad_path_line (path_text (txt "my file") (txt "my file") ++
                  ln "index a1b2c3..d4e5f6 100644") /\
   parse tt (txt "diff --git" ++
             path_text (txt "my file") (txt "my file") ++
             ln "index a1b2c3..d4e5f6 100644")
   = inl AttributeError).
Proof.
  split.
  - split.
    + apply no_newline; [reflexivity|now left].
    + apply (bad_path_line_raises tt
               ((txt " a/" ++ txt "x" ++ txt " b/" ++ txt "y") ++ [])).
      apply no_newline; [reflexivity|now left].
  - split.
    + apply space_in_path; reflexivity.
    + apply (bad_path_line_raises tt
               (path_text (txt "my file") (txt "my file") ++
                ln "index a1b2c3..d4e5f6 100644")).
      apply space_in_path; reflexivity.
Defined.

(** The same texts, evaluated. *)
Example bad_path_lines_evaluated :
  parse tt (txt "diff --git a/x b/y") = inl AttributeError /\
  parse tt (ln "diff --git a/my file b/my file" ++
            ln "index a1b2c3..d4e5f6 100644") = inl AttributeError /\
  length (records_of (ln "diff --git a/x b/y")) = 1.
Proof. vm_compute. repeat split. Qed.

(* ================================================================== *)
(** * Further properties of the parser *)

(** ** Running the matcher along a known text *)

Lemma run_lit (w post : str) (c : cursor) (k : cursor -> option cursor) :
  rest c = w ++ post ->
  run (Lit w) c k = k (Cursor (rev w ++ seen c) post (marks c)).
Proof. intros E. cbn [run]. now rewrite E, drop_prefix_app. Qed.

Lemma run_bol (c : cursor) (k : cursor -> option cursor) :
  at_bol c = true -> run Bol c k = k c.
Proof. intros E. cbn [run]. now rewrite E. Qed.

(** A clause whose keyword is not what the text shows fails. *)
Lemma run_keyword_fail (w : str) (r : regex) (c : cursor)
    (k : cursor -> option cursor) :
  drop_prefix w (rest c) = None -> run (Bol >> Lit w >> r) c k = None.
Proof.
  intros E. cbn [run]. destruct (at_bol c); [|reflexivity]. now rewrite E.
Qed.

Lemma plus_from_stops cls k mk sn post :
  stops cls post -> plus_from cls k mk sn post = None.
Proof. destruct post as [|x post]; simpl; [reflexivity|]. now intros ->. Qed.

(** [cls+] takes the whole run when the continuation accepts there. *)
Lemma plus_from_greedy cls k mk w : forall sn post e,
  run_of cls w -> stops cls post ->
  k (Cursor (rev w ++ sn) post mk) = Some e ->
  plus_from cls k mk sn (w ++ post) = Some e.
Proof.
  induction w as [|x w IH]; intros sn post e [N F] St Hk; [congruence|].
  simpl in F. apply andb_prop in F. destruct F as [Fx Fw].
  simpl. rewrite Fx. destruct w as [|y w].
  - simpl in *. now rewrite (plus_from_stops cls k mk (x :: sn) post St).
  - rewrite (IH (x :: sn) post e); [reflexivity| |exact St|].
    + split; [discriminate|exact Fw].
    + simpl in *. now rewrite <- !app_assoc in *.
Qed.

Lemma run_group_plus (n : nat) (cls : ascii -> bool) (w post : str)
    (c : cursor) (k : cursor -> option cursor) (e : cursor) :
  rest c = w ++ post -> run_of cls w -> stops cls post ->
  k (Cursor (rev w ++ seen c) post
       (fun i => if Nat.eqb i n then Some w else marks c i)) = Some e ->
  run (Group n (Plus cls)) c k = Some e.
Proof.
  intros E R St Hk. cbn [run]. rewrite E.
  apply plus_from_greedy; [exact R|exact St|].
  unfold set_mark. cbn [seen rest marks].
  now rewrite (span_app c _ w) by reflexivity.
Qed.

Lemma run_line_end_nl (post : str) (c : cursor)
    (k : cursor -> option cursor) (e : cursor) :
  rest c = nl :: post ->
  k (Cursor (nl :: seen c) post (marks c)) = Some e ->
  run line_end c k = Some e.
Proof.
  intros E Hk. unfold line_end. cbn [run].
  rewrite E. cbn [drop_prefix]. rewrite Ascii.eqb_refl.
  cbn [rev app]. now rewrite Hk.
Qed.

Lemma run_opt_take (r : regex) (c : cursor) (k : cursor -> option cursor)
    (e : cursor) :
  run r c k = Some e -> run (Opt r) c k = Some e.
Proof. intros E. cbn [run]. now rewrite E. Qed.

Lemma run_opt_skip (r : regex) (c : cursor) (k : cursor -> option cursor) :
  run r c k = None -> run (Opt r) c k = k c.
Proof. intros E. cbn [run]. now rewrite E. Qed.

Lemma run_seq (r1 r2 : regex) (c : cursor) (k : cursor -> option cursor) :
  run (r1 >> r2) c k = run r1 c (fun c1 => run r2 c1 k).
Proof. reflexivity. Qed.

(** The path clause on a path line. *)
Lemma run_path_clause (a b t sn : str) (mk : nat -> option str)
    (k : cursor -> option cursor) (e : cursor) :
  run_of nonspace a -> run_of nonspace b ->
  k (Cursor (rev (path_text a b) ++ sn) t
       (fun i => if Nat.eqb i 2 then Some b else
                 if Nat.eqb i 1 then Some a else mk i)) = Some e ->
  run path_clause (Cursor sn (path_text a b ++ t) mk) k = Some e.
Proof.
  intros Ra Rb Hk. unfold path_clause, path_text.
  rewrite <- !app_assoc.
  rewrite run_seq, (run_lit _ (a ++ txt " b/" ++ b ++ [nl] ++ t))
    by reflexivity.
  cbv beta. rewrite run_seq.
  apply (run_group_plus 1 nonspace a (txt " b/" ++ b ++ [nl] ++ t));
    [reflexivity|exact Ra|reflexivity|].
  cbn [seen rest marks].
  rewrite run_seq, (run_lit _ (b ++ [nl] ++ t)) by reflexivity.
  cbv beta. rewrite run_seq.
  apply (run_group_plus 2 nonspace b ([nl] ++ t));
    [reflexivity|exact Rb|reflexivity|].
  cbn [seen rest marks].
  rewrite (run_lit _ t) by reflexivity.
  cbn [seen rest marks].
  unfold path_text in Hk. rewrite !rev_app_distr, <- !app_assoc in Hk.
  exact Hk.
Qed.

Lemma stops_closes (cls : ascii -> bool) (e t : str) :
  cls nl = false -> closes e t -> stops cls (e ++ t).
Proof. intros E [->|[-> ->]]; [exact E|exact I]. Qed.

Lemma run_line_end_closes (e t : str) (c : cursor)
    (k : cursor -> option cursor) (e' : cursor) :
  closes e t -> rest c = e ++ t ->
  k (Cursor (rev e ++ seen c) t (marks c)) = Some e' ->
  run line_end c k = Some e'.
Proof.
  intros [->|[-> ->]] E Hk.
  - now apply (run_line_end_nl t).
  - unfold line_end. cbn [run]. rewrite E. cbn [app drop_prefix].
    unfold at_eol. rewrite E. cbn [app].
    destruct c as [sn rs mk]. cbn [rest app] in E. subst rs. exact Hk.
Qed.

Lemma run_group_plus_stops (n : nat) (cls : ascii -> bool) (c : cursor)
    (k : cursor -> option cursor) :
  stops cls (rest c) -> run (Group n (Plus cls)) c k = None.
Proof. intros St. cbn [run]. now apply plus_from_stops. Qed.

Ltac step_lit post :=
  rewrite run_seq, (run_lit _ post) by reflexivity; cbv beta.

Ltac step_bol := rewrite run_seq, run_bol by reflexivity; cbv beta.

Ltac step_group n cls w post :=
  rewrite run_seq;
  apply (run_group_plus n cls w post);
  [reflexivity|try assumption|
   first [reflexivity | apply stops_closes; [reflexivity|assumption]]|];
  cbn [seen rest marks].

(** The rename clause on its three lines. *)
Lemma run_rename_clause (si rf rt e t sn : str) (mk : nat -> option str)
    (k : cursor -> option cursor) (e' : cursor) :
  run_of digit si -> run_of nonspace rf -> run_of nonspace rt ->
  closes e t ->
  at_bol (Cursor sn (rename_text si rf rt e ++ t) mk) = true ->
  k (Cursor (rev (rename_text si rf rt e) ++ sn) t
       (fun i => if Nat.eqb i 5 then Some rt else
                 if Nat.eqb i 4 then Some rf else
                 if Nat.eqb i 3 then Some si else mk i)) = Some e' ->
  run rename_clause (Cursor sn (rename_text si rf rt e ++ t) mk) k = Some e'.
Proof.
  intros R1 R2 R3 Cl B Hk. unfold rename_clause, rename_text in *.
  rewrite <- !app_assoc in *.
  rewrite run_seq, run_bol by exact B. cbv beta.
  step_lit (si ++ ln "%" ++ txt "rename from " ++ rf ++ [nl] ++
            txt "rename to " ++ rt ++ e ++ t).
  step_group 3 digit si (ln "%" ++ txt "rename from " ++ rf ++ [nl] ++
                         txt "rename to " ++ rt ++ e ++ t).
  step_lit (txt "rename from " ++ rf ++ [nl] ++ txt "rename to " ++ rt ++ e ++ t).
  step_bol.
  step_lit (rf ++ [nl] ++ txt "rename to " ++ rt ++ e ++ t).
  step_group 4 nonspace rf ([nl] ++ txt "rename to " ++ rt ++ e ++ t).
  step_lit (txt "rename to " ++ rt ++ e ++ t).
  step_bol.
  step_lit (rt ++ e ++ t).
  step_group 5 nonspace rt (e ++ t).
  apply (run_line_end_closes e t); [exact Cl|reflexivity|].
  cbn [seen rest marks].
  rewrite !rev_app_distr, <- !app_assoc in Hk. exact Hk.
Qed.

(** The mode clause on its two lines. *)
Lemma run_mode_clause (om nm e t sn : str) (mk : nat -> option str)
    (k : cursor -> option cursor) (e' : cursor) :
  run_of digit om -> run_of digit nm -> closes e t ->
  at_bol (Cursor sn (mode_text om nm e ++ t) mk) = true ->
  k (Cursor (rev (mode_text om nm e) ++ sn) t
       (fun i => if Nat.eqb i 7 then Some nm else
                 if Nat.eqb i 6 then Some om else mk i)) = Some e' ->
  run mode_clause (Cursor sn (mode_text om nm e ++ t) mk) k = Some e'.
Proof.
  intros R1 R2 Cl B Hk. unfold mode_clause, mode_text in *.
  rewrite <- !app_assoc in *.
  rewrite run_seq, run_bol by exact B. cbv beta.
  step_lit (om ++ [nl] ++ txt "new mode " ++ nm ++ e ++ t).
  step_group 6 digit om ([nl] ++ txt "new mode " ++ nm ++ e ++ t).
  step_lit (txt "new mode " ++ nm ++ e ++ t).
  step_bol.
  step_lit (nm ++ e ++ t).
  step_group 7 digit nm (e ++ t).
  apply (run_line_end_closes e t); [exact Cl|reflexivity|].
  cbn [seen rest marks].
  rewrite !rev_app_distr, <- !app_assoc in Hk. exact Hk.
Qed.

(** The new-file clause on its line. *)
Lemma run_new_file_clause (v e t sn : str) (mk : nat -> option str)
    (k : cursor -> option cursor) (e' : cursor) :
  run_of dot v -> closes e t ->
  at_bol (Cursor sn (new_file_text v e ++ t) mk) = true ->
  k (Cursor (rev (new_file_text v e) ++ sn) t
       (fun i => if Nat.eqb i 8 then Some v else mk i)) = Some e' ->
  run new_file_clause (Cursor sn (new_file_text v e ++ t) mk) k = Some e'.
Proof.
  intros R1 Cl B Hk. unfold new_file_clause, new_file_text in *.
  rewrite <- !app_assoc in *.
  rewrite run_seq, run_bol by exact B. cbv beta.
  step_lit (v ++ e ++ t).
  step_group 8 dot v (e ++ t).
  apply (run_line_end_closes e t); [exact Cl|reflexivity|].
  cbn [seen rest marks].
  rewrite !rev_app_distr, <- !app_assoc in Hk. exact Hk.
Qed.

(** The deleted-file clause on its line. *)
Lemma run_deleted_file_clause (v e t sn : str) (mk : nat -> option str)
    (k : cursor -> option cursor) (e' : cursor) :
  run_of dot v -> closes e t ->
  at_bol (Cursor sn (deleted_file_text v e ++ t) mk) = true ->
  k (Cursor (rev (deleted_file_text v e) ++ sn) t
       (fun i => if Nat.eqb i 9 then Some v else mk i)) = Some e' ->
  run deleted_file_clause (Cursor sn (deleted_file_text v e ++ t) mk) k
  = Some e'.
Proof.
  intros R1 Cl B Hk. unfold deleted_file_clause, deleted_file_text in *.
  rewrite <- !app_assoc in *.
  rewrite run_seq, run_bol by exact B. cbv beta.
  step_lit (v ++ e ++ t).
  step_group 9 dot v (e ++ t).
  apply (run_line_end_closes e t); [exact Cl|reflexivity|].
  cbn [seen rest marks].
  rewrite !rev_app_distr, <- !app_assoc in Hk. exact Hk.
Qed.

(** The index clause on a line with a mode behind the ids: the space is
    taken by [[ ]?] and the mode is the rest of the line. *)
Lemma run_index_clause_mode (ac bc m e t sn : str) (mk : nat -> option str)
    (k : cursor -> option cursor) (e' : cursor) :
  run_of hexdigit ac -> run_of hexdigit bc -> run_of dot m -> closes e t ->
  at_bol (Cursor sn (index_text ac bc (txt " ") m e ++ t) mk) = true ->
  k (Cursor (rev (index_text ac bc (txt " ") m e) ++ sn) t
       (fun i => if Nat.eqb i 12 then Some m else
                 if Nat.eqb i 11 then Some bc else
                 if Nat.eqb i 10 then Some ac else mk i)) = Some e' ->
  run index_clause (Cursor sn (index_text ac bc (txt " ") m e ++ t) mk) k
  = Some e'.
Proof.
  intros R1 R2 R3 Cl B Hk. unfold index_clause, index_text in *.
  rewrite <- !app_assoc in *.
  rewrite run_seq, run_bol by exact B. cbv beta.
  step_lit (ac ++ txt ".." ++ bc ++ txt " " ++ m ++ e ++ t).
  step_group 10 hexdigit ac (txt ".." ++ bc ++ txt " " ++ m ++ e ++ t).
  step_lit (bc ++ txt " " ++ m ++ e ++ t).
  step_group 11 hexdigit bc (txt " " ++ m ++ e ++ t).
  rewrite run_seq. apply run_opt_take.
  rewrite (run_lit _ (m ++ e ++ t)) by reflexivity. cbv beta.
  rewrite run_seq. apply run_opt_take.
  apply (run_group_plus 12 dot m (e ++ t));
    [reflexivity|exact R3|apply stops_closes; [reflexivity|exact Cl]|].
  cbn [seen rest marks].
  apply (run_line_end_closes e t); [exact Cl|reflexivity|].
  cbn [seen rest marks].
  rewrite !rev_app_distr, <- !app_assoc in Hk. exact Hk.
Qed.

(** The index clause on a line that ends behind the ids. *)
Lemma run_index_clause_plain (ac bc e t sn : str) (mk : nat -> option str)
    (k : cursor -> option cursor) (e' : cursor) :
  run_of hexdigit ac -> run_of hexdigit bc -> closes e t ->
  at_bol (Cursor sn (index_text ac bc [] [] e ++ t) mk) = true ->
  k (Cursor (rev (index_text ac bc [] [] e) ++ sn) t
       (fun i => if Nat.eqb i 11 then Some bc else
                 if Nat.eqb i 10 then Some ac else mk i)) = Some e' ->
  run index_clause (Cursor sn (index_text ac bc [] [] e ++ t) mk) k
  = Some e'.
Proof.
  intros R1 R2 Cl B Hk. unfold index_clause, index_text in *.
  cbn [app] in *. rewrite <- !app_assoc in *.
  rewrite run_seq, run_bol by exact B. cbv beta.
  step_lit (ac ++ txt ".." ++ bc ++ e ++ t).
  step_group 10 hexdigit ac (txt ".." ++ bc ++ e ++ t).
  step_lit (bc ++ e ++ t).
  step_group 11 hexdigit bc (e ++ t).
  assert (stops dot (e ++ t)) as Sd
    by (apply stops_closes; [reflexivity|exact Cl]).
  rewrite run_seq, run_opt_skip.
  2:{ cbn [run rest]. destruct Cl as [->|[-> ->]]; reflexivity. }
  rewrite run_seq, run_opt_skip
    by (apply run_group_plus_stops; exact Sd).
  apply (run_line_end_closes e t); [exact Cl|reflexivity|].
  cbn [seen rest marks].
  rewrite !rev_app_distr, <- !app_assoc in Hk. exact Hk.
Qed.

(** ** Optional clauses, present or absent *)

Lemma line_ready_after (X e t sn : str) :
  closes e t -> line_ready (rev (X ++ e) ++ sn) t.
Proof.
  intros [->|[-> ->]]; [left|now right].
  rewrite rev_unit. reflexivity.
Qed.

Lemma line_ready_bol (sn rs : str) (mk : nat -> option str) :
  line_ready sn rs -> rs <> [] -> at_bol (Cursor sn rs mk) = true.
Proof. intros [B|N] Hn; [exact B|congruence]. Qed.

Lemma step_rename (o : option (str * str * str * str)) (t sn : str)
    (mk : nat -> option str) (k : cursor -> option cursor) (e' : cursor) :
  wf_rename o t -> line_ready sn (rename_lines o ++ t) ->
  (line_ready (rev (rename_lines o) ++ sn) t ->
   k (Cursor (rev (rename_lines o) ++ sn) t (rename_marks o mk)) = Some e') ->
  run (Opt rename_clause) (Cursor sn (rename_lines o ++ t) mk) k = Some e'.
Proof.
  intros W L Hk. destruct o as [[[[si rf] rt] e]|];
    cbn [rename_lines rename_marks wf_rename] in *.
  - destruct W as (R1 & R2 & R3 & Cl).
    apply run_opt_take. apply run_rename_clause; try assumption.
    + apply (line_ready_bol _ _ _ L). discriminate.
    + apply Hk. unfold rename_text. rewrite !app_assoc.
      now apply line_ready_after.
  - cbn [app rev] in *. unfold rename_clause.
    rewrite run_opt_skip by (apply run_keyword_fail; exact W).
    now apply Hk.
Qed.

Lemma step_modes (o : option (str * str * str)) (t sn : str)
    (mk : nat -> option str) (k : cursor -> option cursor) (e' : cursor) :
  wf_modes o t -> line_ready sn (mode_lines o ++ t) ->
  (line_ready (rev (mode_lines o) ++ sn) t ->
   k (Cursor (rev (mode_lines o) ++ sn) t (mode_marks o mk)) = Some e') ->
  run (Opt mode_clause) (Cursor sn (mode_lines o ++ t) mk) k = Some e'.
Proof.
  intros W L Hk. destruct o as [[[om nm] e]|];
    cbn [mode_lines mode_marks wf_modes] in *.
  - destruct W as (R1 & R2 & Cl).
    apply run_opt_take. apply run_mode_clause; try assumption.
    + apply (line_ready_bol _ _ _ L). discriminate.
    + apply Hk. unfold mode_text. rewrite !app_assoc.
      now apply line_ready_after.
  - cbn [app rev] in *. unfold mode_clause.
    rewrite run_opt_skip by (apply run_keyword_fail; exact W).
    now apply Hk.
Qed.

Lemma step_new_file (o : option (str * str)) (t sn : str)
    (mk : nat -> option str) (k : cursor -> option cursor) (e' : cursor) :
  wf_new o t -> line_ready sn (new_file_line o ++ t) ->
  (line_ready (rev (new_file_line o) ++ sn) t ->
   k (Cursor (rev (new_file_line o) ++ sn) t (new_file_marks o mk))
   = Some e') ->
  run (Opt new_file_clause) (Cursor sn (new_file_line o ++ t) mk) k = Some e'.
Proof.
  intros W L Hk. destruct o as [[v e]|];
    cbn [new_file_line new_file_marks wf_new] in *.
  - destruct W as (R1 & Cl).
    apply run_opt_take. apply run_new_file_clause; try assumption.
    + apply (line_ready_bol _ _ _ L). discriminate.
    + apply Hk. unfold new_file_text. rewrite !app_assoc.
      now apply line_ready_after.
  - cbn [app rev] in *. unfold new_file_clause.
    rewrite run_opt_skip by (apply run_keyword_fail; exact W).
    now apply Hk.
Qed.

Lemma step_deleted_file (o : option (str * str)) (t sn : str)
    (mk : nat -> option str) (k : cursor -> option cursor) (e' : cursor) :
  wf_deleted o t -> line_ready sn (deleted_file_line o ++ t) ->
  (line_ready (rev (deleted_file_line o) ++ sn) t ->
   k (Cursor (rev (deleted_file_line o) ++ sn) t (deleted_file_marks o mk))
   = Some e') ->
  run (Opt deleted_file_clause) (Cursor sn (deleted_file_line o ++ t) mk) k
  = Some e'.
Proof.
  intros W L Hk. destruct o as [[v e]|];
    cbn [deleted_file_line deleted_file_marks wf_deleted] in *.
  - destruct W as (R1 & Cl).
    apply run_opt_take. apply run_deleted_file_clause; try assumption.
    + apply (line_ready_bol _ _ _ L). discriminate.
    + apply Hk. unfold deleted_file_text. rewrite !app_assoc.
      now apply line_ready_after.
  - cbn [app rev] in *. unfold deleted_file_clause.
    rewrite run_opt_skip by (apply run_keyword_fail; exact W).
    now apply Hk.
Qed.

Lemma step_index (o : option (str * str * option str * str)) (t sn : str)
    (mk : nat -> option str) (k : cursor -> option cursor) (e' : cursor) :
  wf_index o t -> line_ready sn (index_line o ++ t) ->
  k (Cursor (rev (index_line o) ++ sn) t (index_marks o mk)) = Some e' ->
  run (Opt index_clause) (Cursor sn (index_line o ++ t) mk) k = Some e'.
Proof.
  intros W L Hk. destruct o as [[[[ac bc] [m|]] e]|];
    cbn [index_line index_marks wf_index] in *.
  - destruct W as (R1 & R2 & R3 & Cl).
    apply run_opt_take. apply run_index_clause_mode; try assumption.
    apply (line_ready_bol _ _ _ L). discriminate.
  - destruct W as (R1 & R2 & _ & Cl).
    apply run_opt_take. apply run_index_clause_plain; try assumption.
    apply (line_ready_bol _ _ _ L). discriminate.
  - cbn [app rev] in *. unfold index_clause.
    rewrite run_opt_skip by (apply run_keyword_fail; exact W).
    exact Hk.
Qed.

(** ** Parsing what was written *)

Lemma header_run (hd : header) (body : str) :
  wf_header hd body ->
  run diff_header_re (start_cursor (header_text hd ++ body)) Some =
  Some (Cursor
          (rev (index_line (hd_index hd)) ++
           rev (deleted_file_line (hd_deleted hd)) ++
           rev (new_file_line (hd_new hd)) ++
           rev (mode_lines (hd_modes hd)) ++
           rev (rename_lines (hd_rename hd)) ++
           rev (path_text (hd_a hd) (hd_b hd)) ++ [])
          body
          (index_marks (hd_index hd)
             (deleted_file_marks (hd_deleted hd)
                (new_file_marks (hd_new hd)
                   (mode_marks (hd_modes hd)
                      (rename_marks (hd_rename hd)
                         (fun i => if Nat.eqb i 2 then Some (hd_b hd) else
                                   if Nat.eqb i 1 then Some (hd_a hd)
                                   else None))))))).
Proof.
  intros (Ra & Rb & W1 & W2 & W3 & W4 & W5).
  unfold header_text, start_cursor, diff_header_re, optional_clauses.
  rewrite <- !app_assoc.
  rewrite run_seq. apply run_path_clause; [exact Ra|exact Rb|].
  rewrite run_seq. apply step_rename; [exact W1| |intros L1].
  { left. unfold path_text. rewrite !app_assoc, rev_unit. reflexivity. }
  rewrite run_seq. apply step_modes; [exact W2|exact L1|intros L2].
  rewrite run_seq. apply step_new_file; [exact W3|exact L2|intros L3].
  rewrite run_seq. apply step_deleted_file; [exact W4|exact L3|intros L4].
  apply step_index; [exact W5|exact L4|reflexivity].
Qed.

Lemma or_run (cls : ascii -> bool) (v : str) (b : option str) :
  run_of cls v -> or_ (Some v) b = Some v.
Proof. intros [N _]. destruct v; [congruence|reflexivity]. Qed.

Lemma truthy_run (cls : ascii -> bool) (v : str) :
  run_of cls v -> truthy (Some v) = true.
Proof. intros [N _]. destruct v; [congruence|reflexivity]. Qed.

(** X1. The pattern on a well-formed header followed by hunk text:
    the match object holds the fields of the header as its groups and
    ends where the header ends. *)
Theorem diff_header_written (hd : header) (body : str) :
  wf_header hd body ->
  diff_header (header_text hd ++ body) =
  Some (MkMatch (header_groups hd) (length (header_text hd))).
Proof.
  intros W. unfold diff_header, match_.
  rewrite (header_run hd body W). cbn [option_map]. f_equal.
  unfold match_of. cbn [seen marks]. f_equal.
  - destruct hd as [a b r m n d ix].
    destruct r as [[[[si rf] rt] e1]|], m as [[[om nm] e2]|],
             n as [[nv e3]|], d as [[dv e4]|],
             ix as [[[[ac bc] [im|]] e5]|]; reflexivity.
  - unfold header_text. rewrite !length_app, !length_rev. cbn [length]. lia.
Qed.

(** X2. The loop on a well-formed segment builds the record the
    segment stands for: paths, ids, modes, flags and rename fields as
    written, and the hunk text behind the header. *)
Theorem record_of_written {Repo : Type} (repo : Repo) (hd : header)
    (body : str) :
  wf_header hd body ->
  record_of repo (header_text hd ++ body) = inr (header_record repo hd body).
Proof.
  intros W. unfold record_of. rewrite (diff_header_written hd body W).
  unfold build, header_groups, header_record, Diff_init. cbn [groups end_].
  rewrite skipn_app, skipn_all, Nat.sub_diag. cbn [skipn app].
  destruct W as (Ra & Rb & W1 & W2 & W3 & W4 & W5).
  destruct hd as [a b r m n d ix]. cbn [hd_a hd_b hd_rename hd_modes hd_new
    hd_deleted hd_index] in *.
  unfold hd_similarity_index, hd_rename_from, hd_rename_to, hd_old_mode,
    hd_new_mode, hd_new_file_mode, hd_deleted_file_mode, hd_a_commit,
    hd_b_commit, hd_index_mode.
  cbn [hd_rename hd_modes hd_new hd_deleted hd_index].
  f_equal. f_equal.
  - destruct m as [[[om nm] e2]|]; cbn [option_map first_present].
    + destruct W2 as (R & _). apply (or_run _ _ _ R).
    + destruct d as [[dv e4]|]; cbn [option_map fst]; [|reflexivity].
      destruct W4 as (R & _). unfold or_ at 1. cbn [truthy].
      reflexivity.
  - destruct m as [[[om nm] e2]|]; cbn [option_map first_present].
    + destruct W2 as (_ & R & _).
      rewrite (or_run _ nm _ R). apply (or_run _ _ _ R).
    + unfold or_ at 2. cbn [truthy].
      destruct n as [[nv e3]|]; cbn [option_map fst first_present].
      * destruct W3 as (R & _). apply (or_run _ _ _ R).
      * reflexivity.
  - destruct n as [[nv e3]|]; cbn [option_map fst present]; [|reflexivity].
    destruct W3 as (R & _). apply (truthy_run _ _ R).
  - destruct d as [[dv e4]|]; cbn [option_map fst present]; [|reflexivity].
    destruct W4 as (R & _). apply (truthy_run _ _ R).
  - destruct r as [[[[si rf] rt] e1]|]; cbn [option_map]; [|reflexivity].
    unfold ne, opt_str_eqb. now destruct (list_eq_dec ascii_dec rf rt).
Qed.

(** ** Texts of several segments *)

Lemma drop_prefix_across (a : ascii) (w s r t : str) :
  ~ In a w -> drop_prefix w (s ++ a :: r) = Some t ->
  exists t', drop_prefix w s = Some t'.
Proof.
  revert s. induction w as [|x w IH]; intros s N H; [now exists s|].
  destruct s as [|y s]; simpl in H |- *.
  - destruct (Ascii.eqb x a) eqn:E; [|discriminate].
    apply Ascii.eqb_eq in E. subst x. elim N. now left.
  - destruct (Ascii.eqb x y); [|discriminate].
    apply (IH s); [|exact H]. intros F. apply N. now right.
Qed.

Lemma starts_with_across (a : ascii) (w : str) (c : ascii) (s r : str) :
  ~ In a w -> starts_with (a :: w) (c :: s) = false ->
  starts_with (a :: w) (c :: s ++ a :: r) = false.
Proof.
  unfold starts_with. simpl. intros N H.
  destruct (Ascii.eqb a c); [|reflexivity].
  destruct (drop_prefix w (s ++ a :: r)) as [t|] eqn:E; [|reflexivity].
  destruct (drop_prefix_across a w s r t N E) as (t' & E').
  now rewrite E' in H.
Qed.

Lemma push_app (c : ascii) (ps qs : list str) :
  ps <> [] -> push c (ps ++ qs) = push c ps ++ qs.
Proof. destruct ps; [congruence|reflexivity]. Qed.

(** Splitting a text at one of its separators splits both sides. *)
Lemma split_app (a : ascii) (w X Y : str) :
  ~ In a w ->
  split (a :: w) (X ++ (a :: w) ++ Y) = split (a :: w) X ++ split (a :: w) Y.
Proof.
  intros N. pattern X. apply (split_ind (a :: w)); [discriminate| | |]; clear X.
  - cbn [app]. change (a :: w ++ Y) with ((a :: w) ++ Y).
    now rewrite split_at_sep by discriminate.
  - intros post IH. rewrite <- app_assoc.
    rewrite !split_at_sep by discriminate. now rewrite IH.
  - intros c s E IH.
    change ((c :: s) ++ (a :: w) ++ Y) with (c :: s ++ a :: (w ++ Y)).
    rewrite split_step by now apply starts_with_across.
    change (s ++ a :: w ++ Y) with (s ++ (a :: w) ++ Y).
    rewrite IH, split_step by exact E.
    apply push_app, split_not_nil.
Qed.

(** Splitting what was joined gives the pieces back. *)
Lemma split_join (a : ascii) (w : str) (ps : list str) :
  ~ In a w -> ps <> [] ->
  Forall (fun p => occurrences (a :: w) p = 0) ps ->
  split (a :: w) (join (a :: w) ps) = ps.
Proof.
  intros N. induction ps as [|p ps IH]; intros Hn F; [congruence|].
  inversion F as [|? ? Hp Hps]; subst.
  destruct ps as [|q ps].
  - cbn [join]. now apply split_no_occurrence.
  - rewrite join_cons by discriminate.
    rewrite split_app by exact N.
    rewrite (split_no_occurrence _ _ Hp), IH; [reflexivity|discriminate|].
    exact Hps.
Qed.

Lemma segments_diff_text (segs : list str) :
  Forall (fun seg => occurrences delim seg = 0) segs ->
  segments (diff_text segs) = segs.
Proof.
  intros F. destruct segs as [|s segs]; [reflexivity|].
  unfold diff_text. rewrite segments_behind_token.
  apply split_join; [exact delim_first_unique|discriminate|exact F].
Qed.

Lemma segments_app (t1 s2 : str) :
  segments (t1 ++ delim ++ s2) = segments t1 ++ split delim s2.
Proof.
  unfold segments.
  change (nl :: t1 ++ delim ++ s2) with ((nl :: t1) ++ delim ++ s2).
  unfold delim at 1 2. rewrite split_app by exact delim_first_unique.
  fold delim.
  destruct (split delim (nl :: t1)) as [|p ps] eqn:E;
    [now apply split_not_nil in E|reflexivity].
Qed.

Lemma segment_loop_acc {Repo : Type} (repo : Repo) (segs : list str) :
  forall acc,
    segment_loop repo segs acc =
    match segment_loop repo segs [] with
    | inl e => inl e
    | inr ds => inr (acc ++ ds)
    end.
Proof.
  induction segs as [|seg segs IH]; intros acc.
  - cbn [segment_loop]. now rewrite app_nil_r.
  - rewrite !segment_loop_step.
    destruct (record_of repo seg) as [e|d]; [reflexivity|].
    rewrite (IH (acc ++ [d])), (IH ([] ++ [d])).
    destruct (segment_loop repo segs []); [reflexivity|].
    now rewrite <- app_assoc.
Qed.

Lemma segment_loop_app {Repo : Type} (repo : Repo) (s1 s2 : list str) :
  forall acc,
    segment_loop repo (s1 ++ s2) acc =
    match segment_loop repo s1 acc with
    | inl e => inl e
    | inr ds => segment_loop repo s2 ds
    end.
Proof.
  induction s1 as [|seg s1 IH]; intros acc; [reflexivity|].
  cbn [app]. rewrite !segment_loop_step.
  destruct (record_of repo seg); [reflexivity|apply IH].
Qed.

(** X3. Parsing two texts put together, the second starting with
    [diff --git] on a new line, is parsing the first and then the
    second: the records of both in order, or the first exception
    raised. *)
Theorem parse_concat {Repo : Type} (repo : Repo) (t1 s2 : str) :
  parse repo (t1 ++ [nl] ++ txt "diff --git" ++ s2) =
  match parse repo t1 with
  | inl e => inl e
  | inr ds1 =>
      match parse repo (txt "diff --git" ++ s2) with
      | inl e => inl e
      | inr ds2 => inr (ds1 ++ ds2)
      end
  end.
Proof.
  unfold parse.
  change (t1 ++ [nl] ++ txt "diff --git" ++ s2) with (t1 ++ delim ++ s2).
  rewrite segments_app, segments_behind_token, segment_loop_app.
  destruct (segment_loop repo (segments t1) []) as [e|ds1]; [reflexivity|].
  apply segment_loop_acc.
Qed.

(** X4. Text in front of the first [diff --git] line is left out: a
    text that holds no [diff --git] at a line start, put in front of a
    diff on lines of its own, does not change what the parser returns. *)
Theorem preamble_ignored {Repo : Type} (repo : Repo) (pre s : str) :
  occurrences delim (nl :: pre) = 0 ->
  parse repo (pre ++ [nl] ++ txt "diff --git" ++ s) =
  parse repo (txt "diff --git" ++ s).
Proof.
  intros H. unfold parse.
  change (pre ++ [nl] ++ txt "diff --git" ++ s) with (pre ++ delim ++ s).
  rewrite segments_app, segments_behind_token.
  unfold segments. now rewrite (split_no_occurrence _ _ H).
Qed.

Lemma segment_loop_records {Repo : Type} (repo : Repo) (segs : list str)
    (ds : list (Diff Repo)) :
  Forall2 (fun seg d => record_of repo seg = inr d) segs ds ->
  segment_loop repo segs [] = inr ds.
Proof.
  induction 1 as [|seg d segs ds R F IH]; [reflexivity|].
  rewrite segment_loop_step, R, segment_loop_acc, IH. reflexivity.
Qed.

(** X5. Parsing a diff as git writes it gives back what was written:
    for segments that are well-formed headers followed by hunk texts,
    none of them holding the token [\ndiff --git], the parser returns
    the records the segments stand for, in order. *)
Theorem parse_written {Repo : Type} (repo : Repo)
    (items : list (header * str)) :
  Forall (fun it => wf_header (fst it) (snd it) /\
                    occurrences delim (header_text (fst it) ++ snd it) = 0)
         items ->
  parse repo
    (diff_text (map (fun it => header_text (fst it) ++ snd it) items)) =
  inr (map (fun it => header_record repo (fst it) (snd it)) items).
Proof.
  intros F. unfold parse. rewrite segments_diff_text.
  - apply segment_loop_records.
    induction F as [|it items [W _] F IH]; cbn [map]; constructor.
    + now apply record_of_written.
    + exact IH.
  - induction F as [|it items [_ O] F IH]; cbn [map]; constructor; assumption.
Qed.

(** ** What every record holds *)

(** X6. Every record the parser returns has both paths: non-empty,
    free of whitespace, and the ones its segment starts with. *)
Theorem paths_present {Repo : Type} (repo : Repo) (text : str)
    (ds : list (Diff Repo)) :
  parse repo text = inr ds ->
  Forall2
    (fun seg d =>
       exists a b t,
         a_path d = Some a /\ b_path d = Some b /\
         run_of nonspace a /\ run_of nonspace b /\
         seg = txt " a/" ++ a ++ txt " b/" ++ b ++ [nl] ++ t)
    (segments text) ds.
Proof.
  intros H. apply parse_records in H.
  apply (Forall2_imp _ _ _ _ H). clear. intros seg d R.
  apply record_of_inr in R. destruct R as (h & H & B).
  destruct (build_fields repo seg h d H B) as (Ea & Eb & _).
  destruct (header_decomposition seg h H)
    as (a & b & k1 & k2 & k3 & k4 & k5 & E & _ & Ra & Rb & Ga & Gb & _).
  exists a, b, (k1 ++ k2 ++ k3 ++ k4 ++ k5 ++ skipn (end_ h) seg).
  rewrite Ea, Eb. repeat split; try assumption; try apply Ra; try apply Rb.
  rewrite E at 1. unfold path_text. now rewrite <- !app_assoc.
Qed.

(** X7. The two blob ids of a record come together, from one [index]
    line: both absent, or both non-empty runs of hexadecimal digits. *)
Theorem blob_ids_together {Repo : Type} (repo : Repo) (text : str)
    (ds : list (Diff Repo)) :
  parse repo text = inr ds ->
  Forall
    (fun d =>
       (a_commit d = None /\ b_commit d = None) \/
       (exists ac bc,
          a_commit d = Some ac /\ b_commit d = Some bc /\
          run_of hexdigit ac /\ run_of hexdigit bc))
    ds.
Proof.
  intros H. apply parse_records in H.
  apply (Forall2_right _ _ _ _ H). clear. intros seg d R.
  apply record_of_inr in R. destruct R as (h & H & B).
  destruct (build_fields repo seg h d H B) as (_ & _ & Ea & Eb & _).
  destruct (header_decomposition seg h H)
    as (a & b & k1 & k2 & k3 & k4 & k5 & _ & _ & _ & _ & _ & _ &
        _ & _ & _ & _ & P).
  rewrite Ea, Eb.
  destruct P as [(_ & Na & Nb & _)|
                 (ac & bc & sp & bm & e & _ & _ & _ & Ra & Rb & Ga & Gb & _)].
  - left. now split.
  - right. exists ac, bc. now repeat split; try apply Ra; try apply Rb.
Qed.

(** X8. A record flagged as a new file has a new mode and a record
    flagged as a deleted file has an old mode; and where an old mode
    does not come from a [deleted file mode] line, the [new mode] line
    that must follow the [old mode] line gives the new mode. *)
Theorem flags_carry_modes {Repo : Type} (repo : Repo) (text : str)
    (ds : list (Diff Repo)) :
  parse repo text = inr ds ->
  Forall
    (fun d =>
       (new_file d = true -> exists v, b_mode d = Some v /\ v <> []) /\
       (deleted_file d = true -> exists v, a_mode d = Some v /\ v <> []) /\
       (deleted_file d = false -> a_mode d <> None ->
        exists om nm, a_mode d = Some om /\ b_mode d = Some nm /\
                      run_of digit om /\ run_of digit nm))
    ds.
Proof.
  intros H. apply parse_records in H.
  apply (Forall2_right _ _ _ _ H). clear. intros seg d R.
  apply record_of_inr in R. destruct R as (h & H & B).
  destruct (build_fields repo seg h d H B)
    as (_ & _ & _ & _ & Ea & Eb & En & Ed & _).
  destruct (header_decomposition seg h H)
    as (a & b & k1 & k2 & k3 & k4 & k5 & _ & _ & _ & _ & _ & _ &
        _ & P & _).
  rewrite Ea, Eb, En, Ed.
  rewrite (or_present seg h G.old_mode _ H).
  assert (or_ (or_ (group h G.new_mode) (group h G.new_file_mode))
              (group h G.b_mode) =
          match group h G.new_mode with
          | Some v => Some v
          | None => match group h G.new_file_mode with
                    | Some v => Some v
                    | None => group h G.b_mode
                    end
          end) as Eq.
  { unfold or_ at 1. rewrite (or_present seg h G.new_mode _ H).
    destruct (group h G.new_mode) as [v|] eqn:E1.
    - assert (truthy (Some v) = true) as T.
      { rewrite <- E1. apply (truthy_present seg h _ H). congruence. }
      now rewrite T.
    - destruct (group h G.new_file_mode) as [v|] eqn:E2; [|reflexivity].
      assert (truthy (Some v) = true) as T.
      { rewrite <- E2. apply (truthy_present seg h _ H). congruence. }
      now rewrite T. }
  rewrite Eq. clear Eq.
  split; [|split].
  - intros T. apply (truthy_present seg h _ H) in T.
    destruct (group h G.new_mode) as [v|] eqn:E1.
    + exists v. split; [reflexivity|].
      now apply (group_nonempty seg h G.new_mode v H).
    + destruct (group h G.new_file_mode) as [v|] eqn:E2; [|congruence].
      exists v. split; [reflexivity|].
      now apply (group_nonempty seg h G.new_file_mode v H).
  - intros T. apply (truthy_present seg h _ H) in T.
    destruct (group h G.old_mode) as [v|] eqn:E1.
    + exists v. split; [reflexivity|].
      now apply (group_nonempty seg h G.old_mode v H).
    + destruct (group h G.deleted_file_mode) as [v|] eqn:E2; [|congruence].
      exists v. split; [reflexivity|].
      now apply (group_nonempty seg h G.deleted_file_mode v H).
  - intros T N.
    assert (group h G.deleted_file_mode = None) as Nd.
    { destruct (group h G.deleted_file_mode) as [v|] eqn:E2; [|reflexivity].
      assert (truthy (Some v) = true) as T'.
      { rewrite <- E2. apply (truthy_present seg h _ H). congruence. }
      congruence. }
    destruct P as [(_ & No & Nn)|(om & nm & e & _ & _ & Ro & Rn & Go & Gn)].
    + rewrite No, Nd in N. congruence.
    + exists om, nm. rewrite Go, Gn. now repeat split; try apply Ro; try apply Rn.
Qed.

Ltac wf_solve :=
  cbv [wf_header wf_rename wf_modes wf_new wf_deleted wf_index run_of closes
       sample_hd_rename sample_hd_change sample_hd_new sample_items
       hd_a hd_b hd_rename hd_modes hd_new hd_deleted hd_index];
  repeat match goal with
         | |- _ /\ _ => split
         | |- _ <> _ => discriminate
         | |- True => exact I
         | |- _ \/ _ => first [left; reflexivity | right; split; reflexivity]
         | |- _ = _ => vm_compute; reflexivity
         end.

Lemma diff_header_written_witness :
  wf_header sample_hd_new [] /\
  header_text sample_hd_new ++ [] =
    txt " a/x.txt b/x.txt" ++ [nl] ++ ln "new file mode 100644" ++
    ln "index 0000000..e69de29" /\
  diff_header (header_text sample_hd_new ++ []) =
  Some (MkMatch (header_groups sample_hd_new)
                (length (header_text sample_hd_new))).
Proof.
  split; [wf_solve|]. split; [vm_compute; reflexivity|].
  apply (diff_header_written sample_hd_new []). wf_solve.
Defined.

Lemma record_of_written_witness :
  wf_header sample_hd_change sample_body_change /\
  record_of tt (header_text sample_hd_change ++ sample_body_change) =
  inr (header_record tt sample_hd_change sample_body_change).
Proof.
  split; [wf_solve|].
  apply (record_of_written tt sample_hd_change sample_body_change). wf_solve.
Defined.

Lemma preamble_ignored_witness :
  occurrences delim (nl :: txt "commit 1234") = 0 /\
  parse tt (txt "commit 1234" ++ [nl] ++ txt "diff --git" ++
            header_text sample_hd_new) =
  parse tt (txt "diff --git" ++ header_text sample_hd_new).
Proof.
  split; [vm_compute; reflexivity|].
  apply (preamble_ignored tt (txt "commit 1234") (header_text sample_hd_new)).
  vm_compute; reflexivity.
Defined.

Lemma parse_written_witness :
  Forall (fun it => wf_header (fst it) (snd it) /\
                    occurrences delim (header_text (fst it) ++ snd it) = 0)
         sample_items /\
  diff_text (map (fun it => header_text (fst it) ++ snd it) sample_items)
  = sample_two_files /\
  parse tt
    (diff_text (map (fun it => header_text (fst it) ++ snd it) sample_items))
  = inr (map (fun it => header_record tt (fst it) (snd it)) sample_items).
Proof.
  assert (Forall (fun it => wf_header (fst it) (snd it) /\
                    occurrences delim (header_text (fst it) ++ snd it) = 0)
                 sample_items) as F.
  { unfold sample_items.
    constructor; [cbn [fst snd]; wf_solve|].
    constructor; [cbn [fst snd]; wf_solve|]. constructor. }
  split; [exact F|]. split; [vm_compute; reflexivity|].
  apply (parse_written tt sample_items). exact F.
Defined.

Lemma paths_present_witness :
  parse tt sample_two_files = inr sample_two_files_records /\
  Forall2
    (fun seg d =>
       exists a b t,
         a_path d = Some a /\ b_path d = Some b /\
         run_of nonspace a /\ run_of nonspace b /\
         seg = txt " a/" ++ a ++ txt " b/" ++ b ++ [nl] ++ t)
    (segments sample_two_files) sample_two_files_records.
Proof.
  split; [vm_compute; reflexivity|].
  apply (paths_present tt sample_two_files sample_two_files_records).
  vm_compute; reflexivity.
Defined.

Lemma blob_ids_together_witness :
  parse tt sample_two_files = inr sample_two_files_records /\
  Forall
    (fun d =>
       (a_commit d = None /\ b_commit d = None) \/
       (exists ac bc,
          a_commit d = Some ac /\ b_commit d = Some bc /\
          run_of hexdigit ac /\ run_of hexdigit bc))
    sample_two_files_records.
Proof.
  split; [vm_compute; reflexivity|].
  apply (blob_ids_together tt sample_two_files sample_two_files_records).
  vm_compute; reflexivity.
Defined.

Lemma flags_carry_modes_witness :
  parse tt sample_new_and_deleted = inr sample_new_and_deleted_records /\
  Forall
    (fun d =>
       (new_file d = true -> exists v, b_mode d = Some v /\ v <> []) /\
       (deleted_file d = true -> exists v, a_mode d = Some v /\ v <> []) /\
       (deleted_file d = false -> a_mode d <> None ->
        exists om nm, a_mode d = Some om /\ b_mode d = Some nm /\
                      run_of digit om /\ run_of digit nm))
    sample_new_and_deleted_records.
Proof.
  split; [vm_compute; reflexivity|].
  apply (flags_carry_modes tt sample_new_and_deleted
           sample_new_and_deleted_records).
  vm_compute; reflexivity.
Defined.

(* ================================================================== *)
(** * The test decorators *)

Module HelperFacts.
Import Helper.

Section Decorators.

Variables (Val Exn RepoObj Commit : Type).
Variable is_Exception : Exn -> bool.
Variable working_dir : RepoObj -> str.
Variable env :
  list (event Val Exn RepoObj Commit) ->
  forall c : Call RepoObj Commit, Exn + resp Val RepoObj Commit c.

(** Runs a wrapper through every way its calls can end. *)
Ltac exec H :=
  unfold with_rw_directory, with_rw_repo, bind, call, try_finally,
    try_except, put, get, ret, raise in H;
  repeat first
    [ match type of H with
      | context [env ?tr ?c] =>
          let E := fresh "E" in destruct (env tr c) eqn:E
      end
    | match type of H with
      | context [is_Exception ?e] =>
          let E := fresh "X" in destruct (is_Exception e) eqn:E
      end
    | match type of H with
      | context [if ?b then _ else _] => is_var b; destruct b
      end
    | progress cbn -[txt ln] in H ];
  inversion H; subst; clear H.

Ltac exec_repo H :=
  unfold with_rw_repo, bind, call, try_finally,
    try_except, put, get, ret, raise in H;
  repeat first
    [ match type of H with
      | context [env ?tr ?c] =>
          let E := fresh "E" in destruct (env tr c) eqn:E
      end
    | match type of H with
      | context [if ?b then _ else _] => is_var b; destruct b
      end
    | progress cbn -[txt ln] in H ];
  inversion H; subst; clear H.

(** Settles membership in a record of calls that is known in full. *)
Ltac in_list :=
  unfold called, returned, raised in *;
  repeat match goal with
         | H : exists _, _ |- _ => destruct H as [? H]
         end;
  cbn [In] in *;
  repeat match goal with
         | H : _ \/ _ |- _ => destruct H as [H|H]
         | H : (_, _) = (_, _) |- _ => inversion H; subst; clear H
         | H : False |- _ => elim H
         end.

(** X9. Whenever the wrapper of [with_rw_directory] returns a value,
    it is the value the test function returned, the directory was
    made before the test function ran, and it was removed after it. *)
Theorem rw_directory_returns (cls_name func_name : str)
    (tr : list (event Val Exn RepoObj Commit)) (l : bool) (v : Val) :
  with_rw_directory is_Exception env cls_name func_name [] false
  = (tr, l, inr v) ->
  exists path,
    tr = [ (Mktemp None (Some func_name), inr (VStr path));
           (Mkdir path, inr VNone);
           (TestDir path, inr (VVal v));
           (GcCollect, inr VNone);
           (Rmtree path, inr VNone) ].
Proof.
  clear working_dir.
  intros H. exec H. eexists. reflexivity.
Qed.

(** X10. When the test function raises an exception that derives from
    [Exception] and the failure is logged, the wrapper of
    [with_rw_directory] never removes the directory; the log names it;
    and once [gc.collect()] has returned, the wrapper raises the
    exception of the test function. *)
Theorem rw_directory_keeps_after_failure (cls_name func_name : str)
    (tr : list (event Val Exn RepoObj Commit)) (l : bool)
    (out : Exn + Val) (path : str) (e : Exn) (fmt : str) (args : list str) :
  with_rw_directory is_Exception env cls_name func_name [] false
  = (tr, l, out) ->
  raised (TestDir path) e tr -> is_Exception e = true ->
  returned (LogInfo fmt args) tr ->
  (forall p, ~ called (Rmtree p) tr) /\
  args = [cls_name; func_name; path] /\
  l = true /\
  (returned GcCollect tr -> out = inl e).
Proof.
  clear working_dir.
  intros H R X Lg. exec H; in_list; try congruence.
  all: repeat split; try reflexivity; try congruence.
  all: try (intros p C; in_list).
  all: try (intros C; in_list; reflexivity).
Qed.

(** X11. When the test function raises an exception that does not
    derive from [Exception], the wrapper of [with_rw_directory] logs
    nothing and removes the directory as after a success: once
    [gc.collect()] has returned, [rmtree] is called on it, and once that
    has returned the wrapper raises the exception of the test
    function. *)
Theorem rw_directory_base_exception (cls_name func_name : str)
    (tr : list (event Val Exn RepoObj Commit)) (l : bool)
    (out : Exn + Val) (path : str) (e : Exn) :
  with_rw_directory is_Exception env cls_name func_name [] false
  = (tr, l, out) ->
  raised (TestDir path) e tr -> is_Exception e = false ->
  (forall fmt args, ~ called (LogInfo fmt args) tr) /\
  (returned GcCollect tr -> called (Rmtree path) tr) /\
  (returned (Rmtree path) tr -> out = inl e).
Proof.
  clear working_dir.
  intros H R X. exec H; in_list; try congruence.
  all: repeat split.
  all: try (intros fmt args C; in_list).
  all: try (intros C; in_list; try reflexivity).
  all: try (eexists; cbn [In]; intuition eauto).
Qed.

(** X12. The wrapper of [with_rw_directory] removes nothing but the
    directory it made itself, and only after the test function was
    called in it and [gc.collect()] returned: when [rmtree] is called on
    a path, [mktemp] returned that path, then [mkdir] of it returned,
    then the test function was called with it, then [gc.collect()]
    returned, and only then comes the call of [rmtree], with the
    directory not marked to be kept. A call of [rmtree] is the last call
    the wrapper makes, so there is none before the test function and no
    second one. *)
Theorem rw_directory_removes_own (cls_name func_name : str)
    (tr : list (event Val Exn RepoObj Commit)) (l : bool)
    (out : Exn + Val) (p : str) :
  with_rw_directory is_Exception env cls_name func_name [] false
  = (tr, l, out) ->
  called (Rmtree p) tr ->
  (exists rt rr,
     before (Mktemp None (Some func_name), inr (VStr p))
            (Mkdir p, inr VNone) tr /\
     before (Mkdir p, inr VNone) (TestDir p, rt) tr /\
     before (TestDir p, rt) (GcCollect, inr VNone) tr /\
     before (GcCollect, inr VNone) (Rmtree p, rr) tr) /\
  (forall i q r, nth_error tr i = Some (Rmtree q, r) -> S i = length tr) /\
  l = false.
Proof.
  clear working_dir.
  intros H C. exec H; in_list.
  all: split; [|split; [|reflexivity]].
  all: try (intros i q r N;
            do 6 (destruct i as [|i];
                  [first [discriminate N | reflexivity]|]);
            destruct i; discriminate N).
  all: do 2 eexists; unfold before; repeat split.
  all: first [ exists 0, 1; split; [lia|split; reflexivity]
             | exists 1, 2; split; [lia|split; reflexivity]
             | exists 2, 3; split; [lia|split; reflexivity]
             | exists 2, 4; split; [lia|split; reflexivity]
             | exists 3, 4; split; [lia|split; reflexivity]
             | exists 4, 5; split; [lia|split; reflexivity] ].
Qed.


(** X13. Whenever the wrapper of [with_rw_repo] returns a value, it is
    the value the test function returned; the repository was cloned
    into a fresh directory and set to the commit of the given ref, its
    working tree checked out unless it is bare; the test function ran
    in the working directory of the clone; and afterwards the former
    working directory was entered again and the clone removed. *)
Theorem rw_repo_returns (ref : str) (bare : bool) (rorepo : RepoObj)
    (func_name : str) (tr : list (event Val Exn RepoObj Commit))
    (l : option str) (v : Val) :
  with_rw_repo working_dir env ref bare rorepo func_name [] None
  = (tr, l, inr v) ->
  exists repo_dir rw c prev,
    tr =
      [ (Mktemp (Some ((if bare then [] else txt "non_") ++
                       txt "bare_" ++ func_name)) None,
         inr (VStr repo_dir));
        (Clone rorepo repo_dir bare, inr (VRepo rw));
        (LookupCommit rw ref, inr (VCommit c));
        (SetHeadCommit rw c, inr VNone) ] ++
      (if bare then [] else [(CheckoutHead rw, inr VNone)]) ++
      [ (Getcwd, inr (VStr prev));
        (Chdir (working_dir rw), inr VNone);
        (TestRepo rw, inr (VVal v));
        (Chdir prev, inr VNone);
        (ClearCache rw, inr VNone);
        (GcCollect, inr VNone);
        (Rmtree repo_dir, inr VNone) ].
Proof.
  clear is_Exception.
  intros H. exec_repo H; do 4 eexists; reflexivity.
Qed.

(** X14. Once the test function has been called, the wrapper of
    [with_rw_repo] goes back to the working directory it found: after
    the call of the test function, however it ends, comes a call of
    [os.chdir] with the directory [os.getcwd()] returned before. *)
Theorem rw_repo_restores_cwd (ref : str) (bare : bool) (rorepo : RepoObj)
    (func_name : str) (tr : list (event Val Exn RepoObj Commit))
    (l : option str) (out : Exn + Val) (rw : RepoObj) :
  with_rw_repo working_dir env ref bare rorepo func_name [] None
  = (tr, l, out) ->
  called (TestRepo rw) tr ->
  exists prev r r',
    before (Getcwd, inr (VStr prev)) (TestRepo rw, r) tr /\
    before (TestRepo rw, r) (Chdir prev, r') tr.
Proof.
  clear is_Exception.
  intros H C. exec_repo H; in_list.
  all: do 3 eexists; unfold before; split.
  all: first [ exists 4, 6; split; [lia|split; reflexivity]
             | exists 5, 7; split; [lia|split; reflexivity]
             | exists 6, 7; split; [lia|split; reflexivity]
             | exists 6, 8; split; [lia|split; reflexivity]
             | exists 7, 8; split; [lia|split; reflexivity]
             | exists 7, 9; split; [lia|split; reflexivity] ].
Qed.

(** X15. When the test function raises, whatever the exception, and the
    failure is logged, the wrapper of [with_rw_repo] never removes the
    clone; the log names its directory; and once the cleanup calls have
    returned the wrapper raises the exception of the test function. *)
Theorem rw_repo_keeps_after_failure (ref : str) (bare : bool)
    (rorepo : RepoObj) (func_name : str)
    (tr : list (event Val Exn RepoObj Commit)) (l : option str)
    (out : Exn + Val) (rw : RepoObj) (e : Exn) (fmt : str)
    (args : list str) :
  with_rw_repo working_dir env ref bare rorepo func_name [] None
  = (tr, l, out) ->
  raised (TestRepo rw) e tr -> returned (LogInfo fmt args) tr ->
  (forall p, ~ called (Rmtree p) tr) /\
  (exists repo_dir,
     args = [repo_dir] /\
     returned (Clone rorepo repo_dir bare) tr) /\
  l = None /\
  (returned GcCollect tr -> out = inl e).
Proof.
  clear is_Exception.
  intros H R Lg. exec_repo H; in_list.
  all: split; [intros p C; in_list|].
  all: split; [eexists; split; [reflexivity|];
               eexists; cbn [In]; intuition eauto|].
  all: split; [reflexivity|].
  all: intros C; in_list; reflexivity.
Qed.

(** X16. When the wrapper of [with_rw_repo] does not get as far as the
    test function, a call of the set-up has raised: the wrapper raises
    that exception, the last thing that happened, and cleans nothing up:
    no [rmtree] of the directory that may have been cloned into, no
    [clear_cache], and no [os.chdir] that returned. *)
Theorem rw_repo_setup_failure (ref : str) (bare : bool) (rorepo : RepoObj)
    (func_name : str) (tr : list (event Val Exn RepoObj Commit))
    (l : option str) (out : Exn + Val) :
  with_rw_repo working_dir env ref bare rorepo func_name [] None
  = (tr, l, out) ->
  (forall rw, ~ called (TestRepo rw) tr) ->
  (exists c e, out = inl e /\
               nth_error tr (length tr - 1) = Some (c, inl e)) /\
  (forall p, ~ called (Rmtree p) tr) /\
  (forall rw, ~ called (ClearCache rw) tr) /\
  (forall p, ~ returned (Chdir p) tr).
Proof.
  clear is_Exception.
  intros H N. exec_repo H.
  all: try (exfalso; eapply N; eexists; cbn [In];
            repeat (first [left; reflexivity | right]); fail).
  all: split; [do 2 eexists; split; reflexivity|].
  all: repeat split; intros x C; in_list.
Qed.

End Decorators.
End HelperFacts.

(** ** The decorators on sample outsides *)

Import Helper HelperFacts.

Lemma rw_directory_returns_witness :
  sample_dir_run (inr 7) = (sample_dir_ok_trace, false, inr 7) /\
  exists path,
    sample_dir_ok_trace =
      [ (Mktemp None (Some (txt "test_x")), inr (VStr path));
        (Mkdir path, inr VNone);
        (TestDir path, inr (VVal 7));
        (GcCollect, inr VNone);
        (Rmtree path, inr VNone) ].
Proof.
  split; [vm_compute; reflexivity|].
  apply (rw_directory_returns nat sample_exn str str sample_is_Exception
           (sample_env (inr 7) true) (txt "TestDiff") (txt "test_x")
           sample_dir_ok_trace false 7).
  vm_compute; reflexivity.
Defined.

Lemma rw_directory_keeps_after_failure_witness :
  sample_dir_run (inl AssertionFailed)
  = (sample_dir_failed_trace, true, inl AssertionFailed) /\
  raised (TestDir (txt "/tmp/t")) AssertionFailed sample_dir_failed_trace /\
  sample_is_Exception AssertionFailed = true /\
  returned (LogInfo (ln "Test %s.%s failed, output is at %r")
                    [txt "TestDiff"; txt "test_x"; txt "/tmp/t"])
           sample_dir_failed_trace /\
  ((forall p, ~ called (Rmtree p) sample_dir_failed_trace) /\
   [txt "TestDiff"; txt "test_x"; txt "/tmp/t"]
   = [txt "TestDiff"; txt "test_x"; txt "/tmp/t"] /\
   true = true /\
   (returned GcCollect sample_dir_failed_trace ->
    inl AssertionFailed = (inl AssertionFailed : sample_exn + nat))).
Proof.
  assert (raised (TestDir (txt "/tmp/t")) AssertionFailed
                 sample_dir_failed_trace) as R
    by (vm_compute; tauto).
  assert (returned (LogInfo (ln "Test %s.%s failed, output is at %r")
                    [txt "TestDiff"; txt "test_x"; txt "/tmp/t"])
                   sample_dir_failed_trace) as L
    by (exists VNone; vm_compute; tauto).
  split; [vm_compute; reflexivity|].
  split; [exact R|]. split; [reflexivity|]. split; [exact L|].
  apply (rw_directory_keeps_after_failure nat sample_exn str str
           sample_is_Exception (sample_env (inl AssertionFailed) true)
           (txt "TestDiff") (txt "test_x") sample_dir_failed_trace true
           (inl AssertionFailed) (txt "/tmp/t") AssertionFailed
           (ln "Test %s.%s failed, output is at %r")
           [txt "TestDiff"; txt "test_x"; txt "/tmp/t"]);
    [vm_compute; reflexivity|exact R|reflexivity|exact L].
Defined.

Lemma rw_directory_base_exception_witness :
  sample_dir_run (inl KeyboardInterrupt)
  = (sample_dir_interrupted_trace, false, inl KeyboardInterrupt) /\
  raised (TestDir (txt "/tmp/t")) KeyboardInterrupt
         sample_dir_interrupted_trace /\
  sample_is_Exception KeyboardInterrupt = false /\
  ((forall fmt args, ~ called (LogInfo fmt args)
                        sample_dir_interrupted_trace) /\
   (returned GcCollect sample_dir_interrupted_trace ->
    called (Rmtree (txt "/tmp/t")) sample_dir_interrupted_trace) /\
   (returned (Rmtree (txt "/tmp/t")) sample_dir_interrupted_trace ->
    inl KeyboardInterrupt = (inl KeyboardInterrupt : sample_exn + nat))).
Proof.
  assert (raised (TestDir (txt "/tmp/t")) KeyboardInterrupt
                 sample_dir_interrupted_trace) as R
    by (vm_compute; tauto).
  split; [vm_compute; reflexivity|].
  split; [exact R|]. split; [reflexivity|].
  apply (rw_directory_base_exception nat sample_exn str str
           sample_is_Exception (sample_env (inl KeyboardInterrupt) true)
           (txt "TestDiff") (txt "test_x") sample_dir_interrupted_trace
           false (inl KeyboardInterrupt) (txt "/tmp/t") KeyboardInterrupt);
    [vm_compute; reflexivity|exact R|reflexivity].
Defined.

Lemma rw_directory_removes_own_witness :
  sample_dir_run (inl KeyboardInterrupt)
  = (sample_dir_interrupted_trace, false, inl KeyboardInterrupt) /\
  called (Rmtree (txt "/tmp/t")) sample_dir_interrupted_trace /\
  ((exists rt rr,
      before (Mktemp None (Some (txt "test_x")), inr (VStr (txt "/tmp/t")))
             (Mkdir (txt "/tmp/t"), inr VNone)
             sample_dir_interrupted_trace /\
      before (Mkdir (txt "/tmp/t"), inr VNone) (TestDir (txt "/tmp/t"), rt)
             sample_dir_interrupted_trace /\
      before (TestDir (txt "/tmp/t"), rt) (GcCollect, inr VNone)
             sample_dir_interrupted_trace /\
      before (GcCollect, inr VNone) (Rmtree (txt "/tmp/t"), rr)
             sample_dir_interrupted_trace) /\
   (forall i q r,
      nth_error sample_dir_interrupted_trace i = Some (Rmtree q, r) ->
      S i = length sample_dir_interrupted_trace) /\
   false = false).
Proof.
  assert (called (Rmtree (txt "/tmp/t")) sample_dir_interrupted_trace) as C
    by (exists (inr VNone); vm_compute; tauto).
  split; [vm_compute; reflexivity|]. split; [exact C|].
  apply (rw_directory_removes_own nat sample_exn str str
           sample_is_Exception (sample_env (inl KeyboardInterrupt) true)
           (txt "TestDiff") (txt "test_x") sample_dir_interrupted_trace
           false (inl KeyboardInterrupt) (txt "/tmp/t"));
    [vm_compute; reflexivity|exact C].
Defined.

Lemma rw_repo_returns_witness :
  sample_repo_run (inr 7) true
  = (sample_repo_ok_trace, Some (txt "/tmp/t"), inr 7) /\
  exists repo_dir rw c prev,
    sample_repo_ok_trace =
      [ (Mktemp (Some ((if false then [] else txt "non_") ++
                       txt "bare_" ++ txt "test_x")) None,
         inr (VStr repo_dir));
        (Clone (txt "/repo") repo_dir false, inr (VRepo rw));
        (LookupCommit rw (txt "0.1.6"), inr (VCommit c));
        (SetHeadCommit rw c, inr VNone) ] ++
      (if false then [] else [(CheckoutHead rw, inr VNone)]) ++
      [ (Getcwd, inr (VStr prev));
        (Chdir ((fun r : str => r) rw), inr VNone);
        (TestRepo rw, inr (VVal 7));
        (Chdir prev, inr VNone);
        (ClearCache rw, inr VNone);
        (GcCollect, inr VNone);
        (Rmtree repo_dir, inr VNone) ].
Proof.
  split; [vm_compute; reflexivity|].
  apply (rw_repo_returns nat sample_exn str str (fun r : str => r)
           (sample_env (inr 7) true) (txt "0.1.6") false (txt "/repo")
           (txt "test_x") sample_repo_ok_trace (Some (txt "/tmp/t")) 7).
  vm_compute; reflexivity.
Defined.

Lemma rw_repo_restores_cwd_witness :
  sample_repo_run (inl KeyboardInterrupt) true
  = (sample_repo_interrupted_trace, None, inl KeyboardInterrupt) /\
  called (TestRepo (txt "/tmp/t")) sample_repo_interrupted_trace /\
  exists prev r r',
    before (Getcwd, inr (VStr prev)) (TestRepo (txt "/tmp/t"), r)
           sample_repo_interrupted_trace /\
    before (TestRepo (txt "/tmp/t"), r) (Chdir prev, r')
           sample_repo_interrupted_trace.
Proof.
  assert (called (TestRepo (txt "/tmp/t")) sample_repo_interrupted_trace)
    as C by (exists (inl KeyboardInterrupt); vm_compute; tauto).
  split; [vm_compute; reflexivity|]. split; [exact C|].
  apply (rw_repo_restores_cwd nat sample_exn str str (fun r : str => r)
           (sample_env (inl KeyboardInterrupt) true) (txt "0.1.6") false
           (txt "/repo") (txt "test_x") sample_repo_interrupted_trace None
           (inl KeyboardInterrupt) (txt "/tmp/t"));
    [vm_compute; reflexivity|exact C].
Defined.

Lemma rw_repo_keeps_after_failure_witness :
  sample_repo_run (inl KeyboardInterrupt) true
  = (sample_repo_interrupted_trace, None, inl KeyboardInterrupt) /\
  raised (TestRepo (txt "/tmp/t")) KeyboardInterrupt
         sample_repo_interrupted_trace /\
  returned (LogInfo (txt "Keeping repo after failure: %s") [txt "/tmp/t"])
           sample_repo_interrupted_trace /\
  ((forall p, ~ called (Rmtree p) sample_repo_interrupted_trace) /\
   (exists repo_dir,
      [txt "/tmp/t"] = [repo_dir] /\
      returned (Clone (txt "/repo") repo_dir false)
               sample_repo_interrupted_trace) /\
   None = (None : option str) /\
   (returned GcCollect sample_repo_interrupted_trace ->
    inl KeyboardInterrupt = (inl KeyboardInterrupt : sample_exn + nat))).
Proof.
  assert (raised (TestRepo (txt "/tmp/t")) KeyboardInterrupt
                 sample_repo_interrupted_trace) as R
    by (vm_compute; tauto).
  assert (returned (LogInfo (txt "Keeping repo after failure: %s")
                            [txt "/tmp/t"])
                   sample_repo_interrupted_trace) as L
    by (exists VNone; vm_compute; tauto).
  split; [vm_compute; reflexivity|]. split; [exact R|]. split; [exact L|].
  apply (rw_repo_keeps_after_failure nat sample_exn str str
           (fun r : str => r) (sample_env (inl KeyboardInterrupt) true)
           (txt "0.1.6") false (txt "/repo") (txt "test_x")
           sample_repo_interrupted_trace None (inl KeyboardInterrupt)
           (txt "/tmp/t") KeyboardInterrupt
           (txt "Keeping repo after failure: %s") [txt "/tmp/t"]);
    [vm_compute; reflexivity|exact R|exact L].
Defined.

Lemma rw_repo_setup_failure_witness :
  sample_repo_run (inr 7) false
  = (sample_repo_setup_trace, Some (txt "/tmp/t"), inl AssertionFailed) /\
  (forall rw, ~ called (TestRepo rw) sample_repo_setup_trace) /\
  ((exists c e,
      (inl AssertionFailed : sample_exn + nat) = inl e /\
      nth_error sample_repo_setup_trace
                (length sample_repo_setup_trace - 1) = Some (c, inl e)) /\
   (forall p, ~ called (Rmtree p) sample_repo_setup_trace) /\
   (forall rw, ~ called (ClearCache rw) sample_repo_setup_trace) /\
   (forall p, ~ returned (Chdir p) sample_repo_setup_trace)).
Proof.
  assert (forall rw, ~ called (TestRepo rw) sample_repo_setup_trace) as N.
  { intros rw [r C]. vm_compute in C.
    repeat (destruct C as [C|C]; [discriminate C|]). exact C. }
  split; [vm_compute; reflexivity|]. split; [exact N|].
  apply (rw_repo_setup_failure nat sample_exn str str (fun r : str => r)
           (sample_env (inr 7) false) (txt "0.1.6") false (txt "/repo")
           (txt "test_x") sample_repo_setup_trace (Some (txt "/tmp/t"))
           (inl AssertionFailed));
    [vm_compute; reflexivity|exact N].
Defined.
